(** * Lifecycle orchestration of the TTS bot (main.py)

    A shallow embedding of [main.py]: the prefix resolver, the command
    dispatch entry point with its global check, the extension loader, the
    resource acquisition done by [TTSBot.start], the readiness race and the
    shutdown sequence of [_real_main].

    Python coroutines are modelled as computations of a state-and-exception
    monad over the bot object.  The collaborators that live outside
    [main.py] (the asyncio scheduler, discord.py, aioredis, asyncpg,
    asyncgTTS, the webhooks) are described by a [World]: for every awaited
    operation it tells how long the operation takes and how it ends. *)

From Stdlib Require Import ZArith Lia Bool List Ascii.
From stdpp Require Import base strings gmap list.

Open Scope string_scope.
Open Scope list_scope.

(** ** Python values shared by the whole file *)

Module Py.

(** The exceptions that can travel through the coroutines of [main.py].
    [CancelledError] derives from [BaseException] only (Python 3.8 and
    later), the others from [Exception]. *)
Inductive exn : Type :=
| CancelledError
| TimeoutError
| KeyError (key : string)
| AttributeError (attr : string)
| ExtensionAlreadyLoaded (name : string)
| ExtensionFailed (name : string) (cause : string)
| Error (cls : string) (msg : string).

(** [isinstance(e, Exception)] *)
Definition is_Exception (e : exn) : bool :=
  match e with
  | CancelledError => false
  | _ => true
  end.

(** [type(e).__name__] *)
Definition type_name (e : exn) : string :=
  match e with
  | CancelledError => "CancelledError"
  | TimeoutError => "TimeoutError"
  | KeyError _ => "KeyError"
  | AttributeError _ => "AttributeError"
  | ExtensionAlreadyLoaded _ => "ExtensionAlreadyLoaded"
  | ExtensionFailed _ _ => "ExtensionFailed"
  | Error cls _ => cls
  end.

(** [str(e)] *)
Definition str (e : exn) : string :=
  match e with
  | CancelledError | TimeoutError => ""
  | KeyError k => "'" +:+ k +:+ "'"
  | AttributeError a => "'TTSBot' object has no attribute '" +:+ a +:+ "'"
  | ExtensionAlreadyLoaded n => "Extension '" +:+ n +:+ "' is already loaded."
  | ExtensionFailed n c => "Extension '" +:+ n +:+ "' raised an error: " +:+ c
  | Error _ msg => msg
  end.

(** [get_error_string], main.py line 146 *)
Definition get_error_string (e : exn) : string :=
  type_name e +:+ ": " +:+ str e.

(** [s.endswith(suffix)] *)
Definition endswith (s suffix : string) : bool :=
  bool_decide (String.length suffix <= String.length s)%nat &&
  String.eqb (String.substring (String.length s - String.length suffix)
                        (String.length suffix) s) suffix.

(** [s[:-n]] for a positive [n] *)
Definition drop_last (n : nat) (s : string) : string :=
  String.substring 0 (String.length s - n) s.

(** [s.startswith(p)] *)
Definition startswith (s p : string) : bool := String.prefix p s.

(** [s[n:]] *)
Definition drop_first (n : nat) (s : string) : string :=
  String.substring n (String.length s - n) s.

End Py.
Export Py.

(** ** What the outside world does *)

Module Async.

(** How an awaited operation ends, and after how many time units. *)
Inductive behav : Type :=
| Completes (d : nat)
| Fails (d : nat) (e : exn)
| Never.

(** The earliest failure among operations started together; among failures
    at the same instant the first scheduled one wins. *)
Fixpoint first_failure (bs : list behav) : option (nat * exn) :=
  match bs with
  | [] => None
  | b :: bs' =>
      match b, first_failure bs' with
      | Fails d e, Some (d', e') =>
          if (d <=? d')%nat then Some (d, e) else Some (d', e')
      | Fails d e, None => Some (d, e)
      | _, r => r
      end
  end.

(** The instant at which all operations have completed, when all do. *)
Fixpoint all_complete (bs : list behav) : option nat :=
  match bs with
  | [] => Some 0%nat
  | Completes d :: bs' =>
      match all_complete bs' with
      | Some m => Some (Nat.max d m)
      | None => None
      end
  | _ :: _ => None
  end.

(** [asyncio.gather] of several awaitables with the default [return_exceptions=False]: the
    first exception raised by a child is propagated at once to the awaiter,
    the other children are left running; without a failure the gather
    completes when the last child does. *)
Definition gather_behav (bs : list behav) : behav :=
  match first_failure bs with
  | Some (d, e) => Fails d e
  | None =>
      match all_complete bs with
      | Some m => Completes m
      | None => Never
      end
  end.

(** [asyncio.wait_for(aw, timeout)]: the result of [aw] when it settles
    before the deadline; otherwise [aw] is cancelled and [TimeoutError] is
    raised at the deadline.  The timer is armed before [aw] starts, so at a
    tie the timer comes first and [aw] is cancelled. *)
Definition wait_for_behav (b : behav) (timeout : nat) : behav :=
  match b with
  | Completes d => if (d <? timeout)%nat then Completes d else Fails timeout TimeoutError
  | Fails d e => if (d <? timeout)%nat then Fails d e else Fails timeout TimeoutError
  | Never => Fails timeout TimeoutError
  end.

(** Has the operation completed successfully by instant [t]? *)
Definition completed_by (t : nat) (b : behav) : bool :=
  match b with
  | Completes d => (d <=? t)%nat
  | _ => false
  end.

End Async.
Export Async.

(** ** discord.py values seen by [main.py] *)

Module Discord.

Record Guild : Type := { guild_id : Z; unavailable : bool }.

(** An incoming message: [message.author.bot], [message.guild] ([None] for a
    direct message) and [message.content]. *)
Record Message : Type :=
  { author_bot : bool; guild : option Guild; content : string }.

(** The two context classes of [utils]. *)
Inductive ctx_class : Type := TypedGuildContext | TypedContext.

Record Context : Type :=
  { ctx_message : Message;
    ctx_cls : ctx_class;
    ctx_prefix : option string;
    ctx_invoked_with : option string;
    ctx_command : option string }.

(** [ctx.guild] is the guild of the message. *)
Definition ctx_guild (ctx : Context) : option Guild := guild (ctx_message ctx).

End Discord.
Export Discord.

(** ** The bot object and the effects of a run *)

Module Runtime.

(** Live handles to external backends. *)
Inductive resource : Type := CacheHandle | PoolHandle | SpeechClient | Connection.

#[global] Instance resource_eq_dec : EqDecision resource.
Proof. solve_decision. Defined.

(** Messages sent to the logs webhook. *)
Inductive notice : Type :=
| Starting                       (* "Starting TTS Bot!" *)
| StartedReady (took : nat)      (* "Started and ready! Took `... seconds`" *)
| ShuttingDown (who : string).   (* "<mention> is shutting down." *)

(** Operations handed to the scheduler. *)
Inductive op : Type :=
| CreatePool | SetupSpeech | ClosePool | CloseCache | CloseBot.

(** What a run does that can be observed from outside. *)
Inductive event : Type :=
| Print (s : string)
| PrintException (e : exn)              (* traceback.print_exception *)
| WebhookSend (channel : string) (n : notice)
| Scheduled (o : op)                    (* the coroutine was created and started *)
| LoadExtension (name : string)         (* self.load_extension(name) was called *)
| CommandRun (name : string)            (* the command callback was invoked *)
| CommandError (e : exn).               (* the command_error event was dispatched *)

(** The [TTSBot] object, with the clock and two ghost fields: [out], the
    events so far (oldest first), and [held], the handles that have been
    obtained and not closed. *)
Record Bot : Type :=
  { clock : nat;
    out : list event;
    held : list resource;
    user : option string;
    cache_db : option resource;
    pool : option resource;
    gtts : option resource;
    channels : gmap string string;
    extensions : list string;
    checks : list (Context -> bool) }.

Definition advance (d : nat) (s : Bot) : Bot :=
  {| clock := clock s + d; out := out s; held := held s; user := user s;
     cache_db := cache_db s; pool := pool s; gtts := gtts s;
     channels := channels s; extensions := extensions s; checks := checks s |}.

Definition set_clock (t : nat) (s : Bot) : Bot :=
  {| clock := t; out := out s; held := held s; user := user s;
     cache_db := cache_db s; pool := pool s; gtts := gtts s;
     channels := channels s; extensions := extensions s; checks := checks s |}.

Definition log_event (ev : event) (s : Bot) : Bot :=
  {| clock := clock s; out := out s ++ [ev]; held := held s; user := user s;
     cache_db := cache_db s; pool := pool s; gtts := gtts s;
     channels := channels s; extensions := extensions s; checks := checks s |}.

Definition hold (r : resource) (s : Bot) : Bot :=
  {| clock := clock s; out := out s; held := held s ++ [r]; user := user s;
     cache_db := cache_db s; pool := pool s; gtts := gtts s;
     channels := channels s; extensions := extensions s; checks := checks s |}.

Definition unhold (r : resource) (s : Bot) : Bot :=
  {| clock := clock s; out := out s;
     held := filter (fun r' => r' <> r) (held s); user := user s;
     cache_db := cache_db s; pool := pool s; gtts := gtts s;
     channels := channels s; extensions := extensions s; checks := checks s |}.

Definition set_user (u : string) (s : Bot) : Bot :=
  {| clock := clock s; out := out s; held := held s; user := Some u;
     cache_db := cache_db s; pool := pool s; gtts := gtts s;
     channels := channels s; extensions := extensions s; checks := checks s |}.

Definition set_cache_db (r : resource) (s : Bot) : Bot :=
  {| clock := clock s; out := out s; held := held s; user := user s;
     cache_db := Some r; pool := pool s; gtts := gtts s;
     channels := channels s; extensions := extensions s; checks := checks s |}.

Definition set_pool_gtts (p g : resource) (s : Bot) : Bot :=
  {| clock := clock s; out := out s; held := held s; user := user s;
     cache_db := cache_db s; pool := Some p; gtts := Some g;
     channels := channels s; extensions := extensions s; checks := checks s |}.

Definition set_channel (name url : string) (s : Bot) : Bot :=
  {| clock := clock s; out := out s; held := held s; user := user s;
     cache_db := cache_db s; pool := pool s; gtts := gtts s;
     channels := <[name := url]> (channels s);
     extensions := extensions s; checks := checks s |}.

Definition register_extension (name : string) (s : Bot) : Bot :=
  {| clock := clock s; out := out s; held := held s; user := user s;
     cache_db := cache_db s; pool := pool s; gtts := gtts s;
     channels := channels s; extensions := extensions s ++ [name];
     checks := checks s |}.

(** Every extension is unloaded. *)
Definition clear_extensions (s : Bot) : Bot :=
  {| clock := clock s; out := out s; held := held s; user := user s;
     cache_db := cache_db s; pool := pool s; gtts := gtts s;
     channels := channels s; extensions := []; checks := checks s |}.

Definition register_check (c : Context -> bool) (s : Bot) : Bot :=
  {| clock := clock s; out := out s; held := held s; user := user s;
     cache_db := cache_db s; pool := pool s; gtts := gtts s;
     channels := channels s; extensions := extensions s;
     checks := checks s ++ [c] |}.

(** How a coroutine ends: with a value, with an exception, or never (it
    stays suspended on an operation that does not settle). *)
Inductive res (A : Type) : Type :=
| Val (a : A)
| Exc (e : exn)
| Hang.
Arguments Val {A} a.
Arguments Exc {A} e.
Arguments Hang {A}.

Definition M (A : Type) : Type := Bot -> res A * Bot.

Definition ret {A} (a : A) : M A := fun s => (Val a, s).

Definition bind {A B} (m : M A) (k : A -> M B) : M B :=
  fun s =>
    match m s with
    | (Val a, s') => k a s'
    | (Exc e, s') => (Exc e, s')
    | (Hang, s') => (Hang, s')
    end.

Definition raise {A} (e : exn) : M A := fun s => (Exc e, s).

Definition get : M Bot := fun s => (Val s, s).

Definition modify (f : Bot -> Bot) : M unit := fun s => (Val tt, f s).

Definition emit (ev : event) : M unit := modify (log_event ev).

(** [print(s)] *)
Definition print (s : string) : M unit := emit (Print s).

Declare Scope py_scope.
Delimit Scope py_scope with py.
Notation "x <- c1 ;; c2" := (bind c1 (fun x => c2))
  (at level 100, c1 at next level, right associativity) : py_scope.
Notation "c1 ;; c2" := (bind c1 (fun _ => c2))
  (at level 100, right associativity) : py_scope.
Open Scope py_scope.

(** [for x in xs: body(x)] *)
Fixpoint for_each {A} (xs : list A) (body : A -> M unit) : M unit :=
  match xs with
  | [] => ret tt
  | x :: xs' => body x ;; for_each xs' body
  end.

(** [try: body / except Exception as e: handler(e)] *)
Definition try_except {A} (body : M A) (handler : exn -> M A) : M A :=
  fun s =>
    match body s with
    | (Exc e, s') => if is_Exception e then handler e s' else (Exc e, s')
    | r => r
    end.

(** [try: body / finally: fin].  [fin] yields [Some a] when it executes
    [return a], which discards whatever [body] left pending (a value, a
    [return] or an exception in flight), and [None] when it runs off its
    end, after which the pending outcome of [body] resumes.  A body that
    never ends never reaches [fin]. *)
Definition try_finally {A} (body : M A) (fin : M (option A)) : M A :=
  fun s =>
    match body s with
    | (Hang, s') => (Hang, s')
    | (r, s') =>
        match fin s' with
        | (Val (Some a), s'') => (Val a, s'')
        | (Val None, s'') => (r, s'')
        | (Exc e, s'') => (Exc e, s'')
        | (Hang, s'') => (Hang, s'')
        end
    end.

(** [await] of one operation of the outside world. *)
Definition await (b : behav) : M unit :=
  fun s =>
    match b with
    | Completes d => (Val tt, advance d s)
    | Fails d e => (Exc e, advance d s)
    | Never => (Hang, s)
    end.

(** A coroutine handed to the scheduler: what it changes in the bot as soon
    as it starts, before its first suspension, how the operation ends, and
    what its completion changes in the bot. *)
Record task : Type :=
  Task { t_op : op; t_run : behav; t_begin : Bot -> Bot; t_done : Bot -> Bot }.

(** The effects of the tasks that have completed by instant [t]. *)
Definition progress (t : nat) (ts : list task) (s : Bot) : Bot :=
  fold_left (fun acc k => if completed_by t (t_run k) then t_done k acc else acc)
            ts s.

(** A future made of tasks started together: its [f_settle] tells when and
    how it ends for its awaiter, its [f_cut] the instant, if any, at which
    a timer cancels the tasks still running. *)
Record future : Type :=
  Future { f_tasks : list task; f_settle : behav; f_cut : option nat }.

(** [asyncio.gather(t1, ..., tn)] *)
Definition gather (ts : list task) : future :=
  Future ts (gather_behav (map t_run ts)) None.

(** [asyncio.wait_for(fut, timeout)] *)
Definition wait_for (fut : future) (timeout : nat) : future :=
  Future (f_tasks fut) (wait_for_behav (f_settle fut) timeout)
         (Some match f_cut fut with
               | Some t => Nat.min t timeout
               | None => timeout
               end).

(** The bot when the future settles at instant [d]: the tasks completed by
    then have had their effect.  When the timer has fired, the timer came
    before whatever else happened at that instant, so only the tasks
    completed strictly before it count; with whole time units, strictly
    before [S t] is by [t]. *)
Definition effects (fut : future) (d : nat) (s : Bot) : Bot :=
  match f_cut fut with
  | Some cut =>
      if (cut <=? d)%nat
      then match cut with
           | O => s
           | S t => progress t (f_tasks fut) s
           end
      else progress d (f_tasks fut) s
  | None => progress d (f_tasks fut) s
  end.

(** [await fut]: the tasks are started in order, each running up to its
    first suspension; when the future settles the tasks completed so far
    have had their effect, the others are left behind (cancelled on a
    timeout, still pending after a sibling's failure). *)
Definition await_future (fut : future) : M unit :=
  for_each (f_tasks fut)
    (fun k => emit (Scheduled (t_op k)) ;; modify (t_begin k)) ;;
  fun s =>
    match f_settle fut with
    | Completes d => (Val tt, advance d (effects fut d s))
    | Fails d e => (Exc e, advance d (effects fut d s))
    | Never => (Hang, s)
    end.

End Runtime.
Export Runtime.

(** ** The outside world of one run *)

Module Env.

(** [discord.Client.connect] after a successful login: either the connection
    ends before the gateway reports READY, or READY arrives after [d] time
    units and the connection then lives until [serve] settles ([serve] is
    measured from READY; a clean end means the client was closed, a failure
    with [CancelledError] is an external termination of the process). *)
Inductive connect_run : Type :=
| EndsBeforeReady (b : behav)
| BecomesReady (d : nat) (serve : behav).

Record World : Type :=
  { w_early_updates : behav;             (* automatic_update.do_early_updates *)
    w_redis : option exn;                (* aioredis.from_url, synchronous *)
    w_create_pool : behav;               (* asyncpg.create_pool *)
    w_gtts_setup : behav;                (* asyncgTTS.setup *)
    w_webhooks : list (string * string); (* config section Webhook URLs *)
    w_listdir : string -> list string;   (* os.listdir *)
    w_ext_fault : string -> option string; (* why importing or setting up a module fails *)
    w_send : string -> notice -> behav;  (* Webhook.send, by channel *)
    w_normal_updates : behav;            (* automatic_update.do_normal_updates *)
    w_login : behav;                     (* discord.Client.login *)
    w_user : string;                     (* the account of the token *)
    w_connect : connect_run;             (* discord.Client.connect *)
    w_pool_close : behav;                (* asyncpg.Pool.close *)
    w_cache_close : behav;               (* aioredis.Redis.close *)
    w_bot_close : behav;                 (* discord.Client.close *)
    w_settings : gmap Z (gmap string string); (* stored settings per guild id *)
    w_commands : string -> option string (* bot.all_commands.get *) }.

End Env.
Export Env.

(** ** Prefix resolution and command dispatch *)

Module Dispatch.

(** The trigger used when nothing else is configured. *)
Definition default_setting (key : string) : string :=
  if String.eqb key "prefix" then "-" else "".

(** Modelled from the spec: [GeneralSettings.get] of
    extensions/database_handler, the per-venue settings store, is not part
    of main.py.  The lookup is keyed by the venue identifier and an absent
    or unregistered venue configuration means the default, never an error;
    one value is returned per requested setting. *)
Definition settings_get (store : gmap Z (gmap string string)) (g : Guild)
    (keys : list string) : list string :=
  map (fun key =>
         match store !! guild_id g with
         | Some row => default (default_setting key) (row !! key)
         | None => default_setting key
         end) keys.

(** [xs[0]] *)
Definition item0 (xs : list string) : M string :=
  match xs with
  | x :: _ => ret x
  | [] => raise (Error "IndexError" "list index out of range")
  end.

(** The word read by discord.py's [StringView.get_word]: up to the first
    space. *)
Fixpoint get_word (s : string) : string :=
  match s with
  | EmptyString => EmptyString
  | String c s' => if Ascii.eqb c " "%char then EmptyString else String c (get_word s')
  end.

(** [only_avaliable], main.py line 149 *)
Definition only_avaliable (ctx : Context) : bool :=
  match ctx_guild ctx with
  | Some g => negb (unavailable g)
  | None => true
  end.

Section WithWorld.
Variable w : World.

(** [prefix], main.py line 34 *)
Definition prefix (message : Message) : M string :=
  match guild message with
  | Some g => item0 (settings_get (w_settings w) g ["prefix"])
  | None => ret "-"
  end.

(** discord.py's [Bot.get_context] with [command_prefix=prefix]: the context
    carries a command only when the content starts with the resolved
    prefix and the word after it names a registered command. *)
Definition get_context (message : Message) (cls : ctx_class) : M Context :=
  p <- prefix message ;;
  if startswith (content message) p then
    let invoker := get_word (drop_first (String.length p) (content message)) in
    ret {| ctx_message := message; ctx_cls := cls; ctx_prefix := Some p;
           ctx_invoked_with := Some invoker;
           ctx_command := w_commands w invoker |}
  else
    ret {| ctx_message := message; ctx_cls := cls; ctx_prefix := None;
           ctx_invoked_with := None; ctx_command := None |}.

(** discord.py's [Bot.invoke]: the checks registered with [add_check] are
    evaluated on the context before the command callback; when one of them
    is false the callback is not run and [command_error] is dispatched. *)
Definition invoke (ctx : Context) : M unit :=
  match ctx_command ctx with
  | Some c =>
      s <- get ;;
      if forallb (fun check => check ctx) (checks s)
      then emit (CommandRun c)
      else emit (CommandError (Error "CheckFailure" "The global check functions failed."))
  | None =>
      match ctx_invoked_with ctx with
      | Some name => emit (CommandError (Error "CommandNotFound" name))
      | None => ret tt
      end
  end.

(** [TTSBot.process_commands], main.py line 104 *)
Definition process_commands (message : Message) : M unit :=
  if author_bot message then ret tt
  else
    let ctx_class :=
      match guild message with
      | Some _ => TypedGuildContext
      | None => TypedContext
      end in
    ctx <- get_context message ctx_class ;;
    invoke ctx.

End WithWorld.

End Dispatch.
Export Dispatch.

(** ** Startup, readiness race and shutdown *)

Module Lifecycle.

(** Where the bot task stands when it gives control back for good or
    reports READY; [AtReady serve] remembers how the connection will end. *)
Inductive phase : Type :=
| Returned
| AtReady (serve : behav).

(** The bot task as [asyncio.wait] leaves it. *)
Inductive task_state : Type :=
| Finished (error : option exn)   (* in [done]: returned, or raised [error] *)
| Cancelled                       (* in [done]: the task was cancelled *)
| Pending (t_ready : nat) (serve : behav). (* still running: READY came first *)

(** [bot.user.mention] *)
Definition mention (u : string) : string := "<@" +:+ u +:+ ">".

(** [str(bot.user)] *)
Definition user_str (u : option string) : string :=
  match u with
  | Some name => name
  | None => "None"
  end.

(** The bot right after [TTSBot(...)] was constructed in [_real_main]. *)
Definition new_bot : Bot :=
  {| clock := 0; out := []; held := []; user := None; cache_db := None;
     pool := None; gtts := None; channels := ∅; extensions := [];
     checks := [] |}.

Section WithWorld.
Variable w : World.

(** discord.py's [Bot.load_extension]: a name already registered is
    refused, a module that cannot be imported or whose [setup] raises
    surfaces as [ExtensionFailed] with the name and the cause. *)
Definition load_extension (name : string) : M unit :=
  emit (LoadExtension name) ;;
  s <- get ;;
  if bool_decide (name ∈ extensions s) then raise (ExtensionAlreadyLoaded name)
  else
    match w_ext_fault w name with
    | Some cause => raise (ExtensionFailed name cause)
    | None => modify (register_extension name)
    end.

(** [TTSBot.load_extensions], main.py line 89 *)
Definition load_extensions (folder : string) : M unit :=
  let filered_exts :=
    List.filter (fun e => endswith e ".py") (w_listdir w folder) in
  for_each filered_exts
    (fun ext => load_extension (folder +:+ "." +:+ drop_last 3 ext)).

(** [await bot.channels[name].send(...)] *)
Definition send (name : string) (n : notice) : M unit :=
  s <- get ;;
  match channels s !! name with
  | None => raise (KeyError name)
  | Some _ => emit (WebhookSend name n) ;; await (w_send w name n)
  end.

(** The two acquisitions gathered at line 123. *)
Definition acquire_tasks : list task :=
  [Task CreatePool (w_create_pool w) (fun s => s) (hold PoolHandle);
   Task SetupSpeech (w_gtts_setup w) (fun s => s) (hold SpeechClient)].

(** Lines 119 to 126 of [TTSBot.start]: the cache client is made by a
    synchronous call, then the database pool and the speech client are
    awaited together; the two attributes are assigned only when the gather
    returns. *)
Definition acquire : M unit :=
  match w_redis w with
  | Some e => raise e
  | None => modify (fun s => set_cache_db CacheHandle (hold CacheHandle s))
  end ;;
  await_future (gather acquire_tasks) ;;
  modify (set_pool_gtts PoolHandle SpeechClient).

(** discord.py's [Client.start], login then connect, followed up to the
    instant the connection ends or READY is reported. *)
Definition client_start : M phase :=
  await (w_login w) ;;
  modify (fun s => set_user (w_user w) (hold Connection s)) ;;
  match w_connect w with
  | EndsBeforeReady b => await b ;; modify (unhold Connection) ;; ret Returned
  | BecomesReady d serve => await (Completes d) ;; ret (AtReady serve)
  end.

(** [TTSBot.start], main.py line 117, followed up to READY (see
    [client_start]).  The configuration file is taken to have the sections
    the method reads. *)
Definition start : M phase :=
  acquire ;;
  for_each (w_webhooks w)
    (fun '(channel_name, webhook_url) =>
       modify (set_channel channel_name webhook_url)) ;;
  load_extensions "cogs" ;;
  load_extensions "extensions" ;;
  send "logs" Starting ;;
  await (w_normal_updates w) ;;
  client_start.

(** [asyncio.wait((bot_task, ready_task), return_when=FIRST_COMPLETED)]:
    the main task is suspended while the bot task runs [start]; it resumes
    when the bot task ends or READY is reported, whichever comes first. *)
Definition wait_first_completed : M task_state :=
  fun s =>
    match start s with
    | (Val Returned, s') => (Val (Finished None), s')
    | (Val (AtReady serve), s') => (Val (Pending (clock s') serve), s')
    | (Exc e, s') =>
        (Val (if is_Exception e then Finished (Some e) else Cancelled), s')
    | (Hang, s') => (Hang, s')
    end.

(** [bot_task.exception()] on a task that is done *)
Definition task_exception (t : task_state) : M (option exn) :=
  match t with
  | Finished error => ret error
  | Cancelled => raise CancelledError
  | Pending _ _ => raise (Error "InvalidStateError" "Exception is not set.")
  end.

(** [await bot_task] once READY was reported: the connection ends as the
    world says, counted from READY. *)
Definition await_bot_task (t_ready : nat) (serve : behav) : M unit :=
  fun s =>
    match serve with
    | Completes d =>
        (Val tt, unhold Connection (set_clock (Nat.max (clock s) (t_ready + d)) s))
    | Fails d e => (Exc e, set_clock (Nat.max (clock s) (t_ready + d)) s)
    | Never => (Hang, s)
    end.

(** [bot.pool] and [bot.cache_db] are plain attributes: reading one that was
    never assigned raises [AttributeError]. *)
Definition getattr (field : Bot -> option resource) (name : string) : M resource :=
  s <- get ;;
  match field s with
  | Some r => ret r
  | None => raise (AttributeError name)
  end.

(** The three release operations of line 197.  discord.py's [Bot.close]
    unloads every extension as soon as it starts, before it closes the
    connection. *)
Definition release_tasks : list task :=
  [Task ClosePool (w_pool_close w) (fun s => s) (unhold PoolHandle);
   Task CloseCache (w_cache_close w) (fun s => s) (unhold CacheHandle);
   Task CloseBot (w_bot_close w) clear_extensions (unhold Connection)].

(** Lines 196 to 198: the three closes gathered under a timeout of 5. *)
Definition release_all : M unit :=
  getattr pool "pool" ;;
  getattr cache_db "cache_db" ;;
  await_future (wait_for (gather release_tasks) 5).

(** The [finally] block of [_real_main], lines 192 to 198. *)
Definition shutdown : M (option unit) :=
  s <- get ;;
  match user s with
  | None => ret (Some tt)
  | Some u =>
      send "logs" (ShuttingDown (mention u)) ;;
      release_all ;;
      ret None
  end.

(** The [try] block of [_real_main], lines 174 to 188. *)
Definition readiness_race : M unit :=
  print (String "010" "Logging into Discord...") ;;
  bot_task <- wait_first_completed ;;
  match bot_task with
  | Pending t_ready serve =>
      s <- get ;;
      print ("Logged in as " +:+ user_str (user s) +:+ " and ready!") ;;
      send "logs" (StartedReady (clock s)) ;;
      await_bot_task t_ready serve
  | _ =>
      error <- task_exception bot_task ;;
      print "Bot shutdown before ready!" ;;
      match error with
      | Some e => emit (PrintException e)
      | None => ret tt
      end
  end.

(** The [try] block with its [except] clause, lines 173 to 190. *)
Definition guarded_race : M unit :=
  try_except readiness_race (fun e => print (get_error_string e)).

(** [_real_main], main.py line 157, from the constructed bot on. *)
Definition _real_main : M unit :=
  modify (register_check only_avaliable) ;;
  await (w_early_updates w) ;;
  try_finally guarded_race shutdown.

(** One whole run of the process. *)
Definition run : res unit * Bot := _real_main new_bot.

End WithWorld.

End Lifecycle.
Export Lifecycle.

(** ** Auxiliary notions used to state the properties *)

Module Notions.

(** Appending several events to the trace. *)
Definition log_events (evs : list event) (s : Bot) : Bot :=
  fold_left (fun acc ev => log_event ev acc) evs s.

(** Partial correctness of a coroutine: from a bot satisfying [P], a normal
    end with value [a] leaves a bot satisfying [Q a]; an exception or a
    suspension that never resumes leaves one satisfying [E]. *)
Definition hoare {A} (P : Bot -> Prop) (m : M A) (Q : A -> Bot -> Prop)
    (E : Bot -> Prop) : Prop :=
  forall s, P s ->
    match m s with
    | (Val a, s') => Q a s'
    | (_, s') => E s'
    end.

(** A property of the bot that a coroutine never breaks, however it ends. *)
Definition preserves {A} (I : Bot -> Prop) (m : M A) : Prop :=
  hoare I m (fun _ => I) I.

(** The module name given to [load_extension] for a directory entry. *)
Definition modname (folder ext : string) : string :=
  folder +:+ "." +:+ drop_last 3 ext.

(** The module names [load_extensions] goes through for a listing. *)
Definition modnames (folder : string) (entries : list string) : list string :=
  map (modname folder) (List.filter (fun e => endswith e ".py") entries).

(** Has the release of [r] completed [t] time units into the release phase
    of world [w]?  The speech client has no release operation. *)
Definition closed_by (w : World) (t : nat) (r : resource) : bool :=
  match r with
  | PoolHandle => completed_by t (w_pool_close w)
  | CacheHandle => completed_by t (w_cache_close w)
  | Connection => completed_by t (w_bot_close w)
  | SpeechClient => false
  end.

(** The handles obtained from the gathered acquisitions [t] time units after
    they were started. *)
Definition acquired_by (w : World) (t : nat) : list resource :=
  (if completed_by t (w_create_pool w) then [PoolHandle] else []) ++
  (if completed_by t (w_gtts_setup w) then [SpeechClient] else []).

(** The bot at the instant the two gathered acquisitions are started. *)
Definition gathering (s : Bot) : Bot :=
  log_events [Scheduled CreatePool; Scheduled SetupSpeech]
             (set_cache_db CacheHandle (hold CacheHandle s)).

(** The bot at the instant the three gathered releases are started. *)
Definition releasing (s : Bot) : Bot :=
  clear_extensions
    (log_events [Scheduled ClosePool; Scheduled CloseCache; Scheduled CloseBot] s).

(** The instant up to which the closes of a release phase that settles at
    instant [d] have had their effect: [d] itself before the deadline of 5,
    and 4 once the timer has fired. *)
Definition release_seen (d : nat) : nat := if (5 <=? d)%nat then 4 else d.

(** The trace holds only events accepted by [P]. *)
Definition only_events (P : event -> bool) (s : Bot) : Prop :=
  Forall (fun ev => P ev = true) (out s).

(** The attributes read by the shutdown sequence are in place. *)
Definition equipped (s : Bot) : Prop :=
  pool s = Some PoolHandle /\ cache_db s = Some CacheHandle /\
  is_Some (channels s !! "logs").

(** A bot without an identity, or one with its attributes in place. *)
Definition anonymous_or_equipped (s : Bot) : Prop :=
  user s = None \/ equipped s.

(** The bot of [run] at the instant the bot task is created, when the early
    updates took [d0] time units. *)
Definition booting (d0 : nat) : Bot :=
  log_event (Print (String "010" "Logging into Discord..."))
            (advance d0 (register_check only_avaliable new_bot)).

(** What lines 181 to 183 print for a bot task that ended before READY. *)
Definition failed_report (error : option exn) : list event :=
  Print "Bot shutdown before ready!" ::
  match error with
  | Some e => [PrintException e]
  | None => []
  end.

(** Events that start a release operation. *)
Definition is_release (ev : event) : bool :=
  match ev with
  | Scheduled ClosePool | Scheduled CloseCache | Scheduled CloseBot => true
  | _ => false
  end.

(** The ready notice, whatever the elapsed time it reports. *)
Definition is_ready_notice (ev : event) : bool :=
  match ev with
  | WebhookSend _ (StartedReady _) => true
  | _ => false
  end.

(** Events that run a command callback. *)
Definition is_command_run (ev : event) : bool :=
  match ev with
  | CommandRun _ => true
  | _ => false
  end.

End Notions.
Export Notions.

(** ** Concrete runs *)

Module Scenarios.

(** A world in which every collaborator answers; the arguments are the
    parts that the scenarios below vary. *)
Definition world (redis : option exn) (create_pool gtts_setup : behav)
    (ext_fault : string -> option string) (connect : connect_run)
    (pool_close cache_close bot_close : behav) : World :=
  {| w_early_updates := Completes 0;
     w_redis := redis;
     w_create_pool := create_pool;
     w_gtts_setup := gtts_setup;
     w_webhooks := [("logs", "https://discord.test/api/webhooks/1/logs");
                    ("errors", "https://discord.test/api/webhooks/2/errors")];
     w_listdir := fun folder =>
       if String.eqb folder "cogs" then ["a.py"; "b.py"; "c.py"]
       else ["database_handler.py"; "__pycache__"];
     w_ext_fault := ext_fault;
     w_send := fun _ _ => Completes 1;
     w_normal_updates := Completes 0;
     w_login := Completes 1;
     w_user := "TTS Bot#0001";
     w_connect := connect;
     w_pool_close := pool_close;
     w_cache_close := cache_close;
     w_bot_close := bot_close;
     w_settings := {[ 7%Z := {[ "prefix" := "!" ]} ]};
     w_commands := fun name =>
       if String.eqb name "join" then Some "join" else None |}.

Definition no_fault : string -> option string := fun _ => None.

Definition db_down : exn := Error "ConnectionRefusedError" "connection refused".

(** Everything works; the process is terminated from outside 100 time units
    after READY and every release completes. *)
Definition healthy : World :=
  world None (Completes 2) (Completes 1) no_fault
        (BecomesReady 2 (Fails 100 CancelledError))
        (Completes 1) (Completes 3) (Completes 2).

(** The database refuses the connection after the speech client is up. *)
Definition database_down : World :=
  world None (Fails 2 db_down) (Completes 1) no_fault
        (BecomesReady 2 (Fails 100 CancelledError))
        (Completes 1) (Completes 3) (Completes 2).

(** The database refuses the connection while the speech client is still
    being set up. *)
Definition database_down_early : World :=
  world None (Fails 1 db_down) (Completes 3) no_fault
        (BecomesReady 2 (Fails 100 CancelledError))
        (Completes 1) (Completes 3) (Completes 2).

(** The second module of [cogs] fails in its [setup]. *)
Definition second_cog_broken : World :=
  world None (Completes 2) (Completes 1)
        (fun name => if String.eqb name "cogs.b" then Some "setup raised" else None)
        (BecomesReady 2 (Fails 100 CancelledError))
        (Completes 1) (Completes 3) (Completes 2).

(** The pool fails to close one time unit into the release phase. *)
Definition pool_close_fails : World :=
  world None (Completes 2) (Completes 1) no_fault
        (BecomesReady 2 (Fails 100 CancelledError))
        (Fails 1 (Error "InterfaceError" "pool is closing")) (Completes 3) (Completes 2).

(** The cache never answers the close request. *)
Definition cache_close_stuck : World :=
  world None (Completes 2) (Completes 1) no_fault
        (BecomesReady 2 (Fails 100 CancelledError))
        (Completes 1) Never (Completes 2).

(** The login succeeds and the gateway closes the connection before
    READY. *)
Definition gateway_refuses : World :=
  world None (Completes 2) (Completes 1) no_fault
        (EndsBeforeReady (Fails 1 (Error "PrivilegedIntentsRequired" "4014")))
        (Completes 1) (Completes 3) (Completes 2).

(** A bot that went through startup: handles assigned and held, logs
    channel configured, logged in, the global check registered. *)
Definition serving_bot : Bot :=
  {| clock := 10; out := [];
     held := [CacheHandle; PoolHandle; SpeechClient; Connection];
     user := Some "TTS Bot#0001"; cache_db := Some CacheHandle;
     pool := Some PoolHandle; gtts := Some SpeechClient;
     channels := {[ "logs" := "https://discord.test/api/webhooks/1/logs" ]};
     extensions := []; checks := [only_avaliable] |}.

Definition direct_message : Message :=
  {| author_bot := false; guild := None; content := "-join" |}.

Definition unconfigured_guild_message : Message :=
  {| author_bot := false;
     guild := Some {| guild_id := 8; unavailable := false |};
     content := "-join" |}.

Definition outage_message : Message :=
  {| author_bot := false;
     guild := Some {| guild_id := 7; unavailable := true |};
     content := "!join" |}.

Definition bot_message : Message :=
  {| author_bot := true; guild := None; content := "-join" |}.

End Scenarios.

(** ** Other parts of [main.py] *)

Module BotParts.

(** [c in chars] for a character and a string *)
Fixpoint char_in (c : ascii) (chars : string) : bool :=
  match chars with
  | EmptyString => false
  | String c' chars' => Ascii.eqb c c' || char_in c chars'
  end.

(** [s.lstrip(chars)] *)
Fixpoint lstrip (chars : string) (s : string) : string :=
  match s with
  | EmptyString => EmptyString
  | String c s' => if char_in c chars then lstrip chars s' else s
  end.

(** [s.rstrip(chars)] *)
Fixpoint rstrip (chars : string) (s : string) : string :=
  match s with
  | EmptyString => EmptyString
  | String c s' =>
      match rstrip chars s' with
      | EmptyString => if char_in c chars then EmptyString else String c EmptyString
      | r => String c r
      end
  end.

(** [s.strip(chars)] *)
Definition strip (chars : string) (s : string) : string :=
  rstrip chars (lstrip chars s).

(** [s.split(sep)] for a non-empty [sep], scanning from the left; [skip]
    counts the characters of a separator just matched that are still to be
    passed over. *)
Fixpoint split_from (sep : string) (skip : nat) (s : string) : list string :=
  match s with
  | EmptyString => [EmptyString]
  | String c s' =>
      match skip with
      | S k => split_from sep k s'
      | O =>
          if String.prefix sep s
          then EmptyString :: split_from sep (String.length sep - 1) s'
          else
            match split_from sep 0 s' with
            | word :: words => String c word :: words
            | [] => [String c EmptyString]
            end
      end
  end.

Definition split (sep : string) (s : string) : list string := split_from sep 0 s.

(** [sep.join(words)] *)
Fixpoint join (sep : string) (words : list string) : string :=
  match words with
  | [] => EmptyString
  | [word] => word
  | word :: words' => word +:+ sep +:+ join sep words'
  end.

(** [self.trusted] as [TTSBot.__init__] computes it at line 68 from the
    text of the [trusted_ids] option. *)
Definition trusted (trusted_ids : string) : list string :=
  split ", " (strip "[]'" trusted_ids).

(** Every character of [s] passes the test [p]. *)
Fixpoint all_chars (p : ascii -> bool) (s : string) : bool :=
  match s with
  | EmptyString => true
  | String c s' => p c && all_chars p s'
  end.

(** An identifier written without comma, bracket or quote. *)
Definition plain_id (id : string) : bool :=
  all_chars (fun c => negb (char_in c ",[]'")) id.

(** Is the exception an [asyncgTTS.RatelimitException]? *)
Definition is_ratelimit (e : exn) : bool :=
  match e with
  | Error cls _ => String.eqb cls "RatelimitException"
  | _ => false
  end.

(** [TTSBot.check_gtts], line 94; [gtts_get] is how the request
    [self.gtts.get(text="RL Test", lang="en")] ends.  The result is [True],
    [False] or the exception caught. *)
Definition check_gtts (gtts_get : behav) : M (bool + exn) :=
  fun s =>
    match (getattr gtts "gtts" ;; await gtts_get) s with
    | (Val _, s') => (Val (inl true), s')
    | (Exc e, s') =>
        if is_ratelimit e then (Val (inl false), s')
        else if is_Exception e then (Val (inr e), s')
        else (Exc e, s')
    | (Hang, s') => (Hang, s')
    end.

(** What a [try]/[finally] statement yields once its [finally] block has
    run, from the outcome [pending] left by the [try] block and the way the
    [finally] block ended. *)
Definition after_finally {A} (pending : res A) (fin : res (option A) * Bot)
    : res A * Bot :=
  match fin with
  | (Val (Some a), s) => (Val a, s)
  | (Val None, s) => (pending, s)
  | (Exc e, s) => (Exc e, s)
  | (Hang, s) => (Hang, s)
  end.

(** The bot of a run at the instant READY is reported in state [s1]: the
    login line is printed and the ready notice is handed to the webhook. *)
Definition announcing (w : World) (s1 : Bot) : Bot :=
  log_event (WebhookSend "logs" (StartedReady (clock s1)))
    (log_event (Print ("Logged in as " +:+ w_user w +:+ " and ready!")) s1).

(** The modules a complete startup registers, in order. *)
Definition all_modules (w : World) : list string :=
  modnames "cogs" (w_listdir w "cogs") ++
  modnames "extensions" (w_listdir w "extensions").

(** Events that ask for the activation of a module. *)
Definition is_load (ev : event) : bool :=
  match ev with
  | LoadExtension _ => true
  | _ => false
  end.

(** The three handles are assigned and every configured channel has its
    webhook. *)
Definition backends_ready (w : World) (s : Bot) : Prop :=
  cache_db s = Some CacheHandle /\ pool s = Some PoolHandle /\
  gtts s = Some SpeechClient /\
  Forall (fun '(name, _) => is_Some (channels s !! name)) (w_webhooks w).

(** The bot has not logged in yet; the modules of [known] are its
    extensions and all that it asked to load so far, in that order, none of
    them faulty and none twice. *)
Definition loaded (w : World) (known : list string) (s : Bot) : Prop :=
  user s = None /\
  extensions s = known /\
  List.filter is_load (out s) = map LoadExtension known /\
  Forall (fun name => w_ext_fault w name = None) known /\
  NoDup known.

(** The bot went through the whole of startup: the modules it asked to load
    are those of the two folders, in order, each once and none of them
    faulty; the starting notice was handed to the webhook and the login
    gave the bot the account of the token.  Nothing is said of the
    extensions the bot has at that point, which [bot.close()] unloads. *)
Definition started (w : World) (s : Bot) : Prop :=
  user s = Some (w_user w) /\
  In (WebhookSend "logs" Starting) (out s) /\
  List.filter is_load (out s) = map LoadExtension (all_modules w) /\
  Forall (fun name => w_ext_fault w name = None) (all_modules w) /\
  NoDup (all_modules w).

End BotParts.
Export BotParts.

Module MoreScenarios.
Import Scenarios.

Definition with_login (login : behav) (w : World) : World :=
  {| w_early_updates := w_early_updates w; w_redis := w_redis w;
     w_create_pool := w_create_pool w; w_gtts_setup := w_gtts_setup w;
     w_webhooks := w_webhooks w; w_listdir := w_listdir w;
     w_ext_fault := w_ext_fault w; w_send := w_send w;
     w_normal_updates := w_normal_updates w; w_login := login;
     w_user := w_user w; w_connect := w_connect w;
     w_pool_close := w_pool_close w; w_cache_close := w_cache_close w;
     w_bot_close := w_bot_close w; w_settings := w_settings w;
     w_commands := w_commands w |}.

Definition with_send (send : string -> notice -> behav) (w : World) : World :=
  {| w_early_updates := w_early_updates w; w_redis := w_redis w;
     w_create_pool := w_create_pool w; w_gtts_setup := w_gtts_setup w;
     w_webhooks := w_webhooks w; w_listdir := w_listdir w;
     w_ext_fault := w_ext_fault w; w_send := send;
     w_normal_updates := w_normal_updates w; w_login := w_login w;
     w_user := w_user w; w_connect := w_connect w;
     w_pool_close := w_pool_close w; w_cache_close := w_cache_close w;
     w_bot_close := w_bot_close w; w_settings := w_settings w;
     w_commands := w_commands w |}.

Definition with_webhooks (webhooks : list (string * string)) (w : World) : World :=
  {| w_early_updates := w_early_updates w; w_redis := w_redis w;
     w_create_pool := w_create_pool w; w_gtts_setup := w_gtts_setup w;
     w_webhooks := webhooks; w_listdir := w_listdir w;
     w_ext_fault := w_ext_fault w; w_send := w_send w;
     w_normal_updates := w_normal_updates w; w_login := w_login w;
     w_user := w_user w; w_connect := w_connect w;
     w_pool_close := w_pool_close w; w_cache_close := w_cache_close w;
     w_bot_close := w_bot_close w; w_settings := w_settings w;
     w_commands := w_commands w |}.

(** The configuration has an errors channel but no logs channel. *)
Definition logs_missing : World :=
  with_webhooks [("errors", "https://discord.test/api/webhooks/2/errors")] healthy.

(** The process is terminated from outside during the login. *)
Definition login_cancelled : World := with_login (Fails 1 CancelledError) healthy.

Definition gateway_lost : exn := Error "ConnectionClosed" "1006".

(** The connection breaks 50 time units after READY. *)
Definition serve_crashes : World :=
  world None (Completes 2) (Completes 1) no_fault
        (BecomesReady 2 (Fails 50 gateway_lost))
        (Completes 1) (Completes 3) (Completes 2).

Definition webhook_down : exn := Error "HTTPException" "503 Service Unavailable".

(** The logs webhook refuses the ready notice. *)
Definition ready_notice_refused : World :=
  with_send (fun _ n => match n with
                        | StartedReady _ => Fails 1 webhook_down
                        | _ => Completes 1
                        end) healthy.

(** The logs webhook never answers the shutdown notice. *)
Definition shutdown_notice_stuck : World :=
  with_send (fun _ n => match n with
                        | ShuttingDown _ => Never
                        | _ => Completes 1
                        end) healthy.

(** Closing the connection takes exactly as long as the deadline of the
    release phase. *)
Definition close_at_deadline : World :=
  world None (Completes 2) (Completes 1) no_fault
        (BecomesReady 2 (Fails 100 CancelledError))
        (Completes 1) (Completes 3) (Completes 5).

End MoreScenarios.

Import Scenarios.
Import MoreScenarios.

(** ** Reasoning rules for coroutines *)

Section Rules.
Context {A B : Type}.

Lemma bind_val (m : M A) (k : A -> M B) s a s' :
  m s = (Val a, s') -> bind m k s = k a s'.
Proof. intros H. unfold bind. now rewrite H. Qed.

Lemma bind_exc (m : M A) (k : A -> M B) s e s' :
  m s = (Exc e, s') -> bind m k s = (Exc e, s').
Proof. intros H. unfold bind. now rewrite H. Qed.

Lemma bind_hang (m : M A) (k : A -> M B) s s' :
  m s = (Hang, s') -> bind m k s = (Hang, s').
Proof. intros H. unfold bind. now rewrite H. Qed.

Lemma hoare_bind (P : Bot -> Prop) (m : M A) (k : A -> M B) R Q E :
  hoare P m R E -> (forall a, hoare (R a) (k a) Q E) -> hoare P (bind m k) Q E.
Proof.
  intros Hm Hk s HP. specialize (Hm s HP). unfold bind.
  destruct (m s) as [[a| e |] s']; auto.
  apply (Hk a s' Hm).
Qed.

Lemma hoare_conseq (P P' : Bot -> Prop) (m : M A) (Q Q' : A -> Bot -> Prop) (E E' : Bot -> Prop) :
  hoare P m Q E ->
  (forall s, P' s -> P s) -> (forall a s, Q a s -> Q' a s) -> (forall s, E s -> E' s) ->
  hoare P' m Q' E'.
Proof.
  intros H HP HQ HE s Hs. specialize (H s (HP s Hs)).
  destruct (m s) as [[a| e |] s']; auto.
Qed.

Lemma preserves_bind (I : Bot -> Prop) (m : M A) (k : A -> M B) :
  preserves I m -> (forall a, preserves I (k a)) -> preserves I (bind m k).
Proof. intros Hm Hk. apply hoare_bind with (R := fun _ => I); auto. Qed.

Lemma preserves_ret (I : Bot -> Prop) (a : A) : preserves I (ret a).
Proof. intros s Hs. exact Hs. Qed.

Lemma preserves_raise (I : Bot -> Prop) (e : exn) : preserves I (@raise A e).
Proof. intros s Hs. exact Hs. Qed.

Lemma preserves_try_except (I : Bot -> Prop) (body : M A) handler :
  preserves I body -> (forall e, preserves I (handler e)) ->
  preserves I (try_except body handler).
Proof.
  intros Hb Hh s Hs. specialize (Hb s Hs). unfold try_except.
  destruct (body s) as [[a| e |] s']; auto.
  destruct (is_Exception e); auto. apply (Hh e s' Hb).
Qed.

End Rules.

Lemma preserves_get (I : Bot -> Prop) : preserves I get.
Proof. intros s Hs. exact Hs. Qed.

Lemma preserves_modify (I : Bot -> Prop) f :
  (forall s, I s -> I (f s)) -> preserves I (modify f).
Proof. intros Hf s Hs. apply Hf, Hs. Qed.

Lemma preserves_await (I : Bot -> Prop) b :
  (forall d s, I s -> I (advance d s)) -> preserves I (await b).
Proof. intros Hadv s Hs. destruct b; simpl; auto. Qed.

Lemma preserves_for_each {A} (I : Bot -> Prop) (xs : list A) body :
  (forall x, preserves I (body x)) -> preserves I (for_each xs body).
Proof.
  intros Hb. induction xs as [|x xs IH]; simpl.
  - apply preserves_ret.
  - apply preserves_bind; auto.
Qed.

Lemma progress_keeps (I : Bot -> Prop) t ts :
  (forall k s, In k ts -> I s -> I (t_done k s)) ->
  forall s, I s -> I (progress t ts s).
Proof.
  unfold progress. induction ts as [|k ts IH]; simpl; intros Hk s Hs; auto.
  apply IH; auto. destruct (completed_by t (t_run k)); auto.
Qed.

Lemma effects_keeps (I : Bot -> Prop) fut d :
  (forall k s, In k (f_tasks fut) -> I s -> I (t_done k s)) ->
  forall s, I s -> I (effects fut d s).
Proof.
  intros Hdone s Hs. unfold effects.
  destruct (f_cut fut) as [[|t]|];
    [destruct (0 <=? d)%nat | destruct (S t <=? d)%nat | ];
    try exact Hs; apply progress_keeps; assumption.
Qed.

Lemma preserves_await_future (I : Bot -> Prop) fut :
  (forall k s, In k (f_tasks fut) -> I s ->
               I (t_begin k (log_event (Scheduled (t_op k)) s))) ->
  (forall k s, In k (f_tasks fut) -> I s -> I (t_done k s)) ->
  (forall d s, I s -> I (advance d s)) ->
  preserves I (await_future fut).
Proof.
  intros Hev Hdone Hadv. unfold await_future. apply preserves_bind.
  - generalize (f_tasks fut) Hev. clear. intros ts.
    induction ts as [|k ts IH]; intros Hev; simpl.
    + apply preserves_ret.
    + apply preserves_bind.
      * intros s Hs. cbn. apply Hev; simpl; auto.
      * intros _. apply IH. intros k' s Hin. apply Hev. simpl; auto.
  - intros _ s Hs. destruct (f_settle fut); simpl; auto;
      apply Hadv, effects_keeps; auto.
Qed.

(** ** The prefix resolver *)

Lemma settings_get_prefix store g :
  settings_get store g ["prefix"] =
  [default "-" (store !! guild_id g ≫= fun row => row !! "prefix")].
Proof.
  unfold settings_get. simpl. destruct (store !! guild_id g) as [row|]; reflexivity.
Qed.

Lemma prefix_total w message s : exists p, prefix w message s = (Val p, s).
Proof.
  unfold prefix. destruct (guild message) as [g|].
  - rewrite settings_get_prefix. simpl. eauto.
  - eauto.
Qed.

(** C8.  A private message resolves to the fixed trigger "-" whatever the
    settings store holds, and so does a message from a guild for which the
    store has no row or a row without a prefix: the resolver returns
    normally, it raises nothing and leaves the bot untouched. *)
Theorem prefix_default w (message : Message) s :
  match guild message with
  | None => True
  | Some g => w_settings w !! guild_id g ≫= (fun row => row !! "prefix") = None
  end ->
  prefix w message s = (Val "-", s).
Proof.
  unfold prefix. destruct (guild message) as [g|]; intros H.
  - rewrite settings_get_prefix, H. reflexivity.
  - reflexivity.
Qed.

Lemma prefix_default_witness :
  prefix healthy direct_message serving_bot = (Val "-", serving_bot) /\
  prefix healthy unconfigured_guild_message serving_bot = (Val "-", serving_bot).
Proof.
  split.
  - apply (prefix_default healthy direct_message serving_bot). exact I.
  - apply (prefix_default healthy unconfigured_guild_message serving_bot).
    vm_compute. reflexivity.
Defined.

(** A stored trigger is what the resolver returns for its guild. *)
Example prefix_configured :
  fst (prefix healthy outage_message serving_bot) = Val "!".
Proof. vm_compute. reflexivity. Qed.

(** ** Command dispatch *)

Lemma get_context_message w message cls s :
  exists ctx, get_context w message cls s = (Val ctx, s) /\ ctx_message ctx = message.
Proof.
  unfold get_context. destruct (prefix_total w message s) as [p Hp].
  rewrite (bind_val _ _ _ _ _ Hp).
  destruct (startswith (content message) p); eexists; split; reflexivity.
Qed.

Lemma invoke_out ctx s :
  exists evs, invoke ctx s = (Val tt, log_events evs s) /\
    (Forall (fun ev => is_command_run ev = false) evs \/
     (forallb (fun check => check ctx) (checks s) = true /\
      exists c, ctx_command ctx = Some c /\ evs = [CommandRun c])).
Proof.
  unfold invoke. destruct (ctx_command ctx) as [c|].
  - unfold bind, get. destruct (forallb _ (checks s)) eqn:Hc.
    + exists [CommandRun c]. split; [reflexivity|]. right. eauto.
    + eexists [_]. split; [reflexivity|]. left. repeat constructor.
  - destruct (ctx_invoked_with ctx).
    + eexists [_]. split; [reflexivity|]. left. repeat constructor.
    + exists []. split; [reflexivity|]. left. constructor.
Qed.

(** C10.  [only_avaliable] is true on every context whose message has no
    guild, so for such a context it never changes the verdict of the global
    checks: wherever it stands among them, they pass on the context exactly
    when the other checks do. *)
Theorem only_avaliable_direct_message (ctx : Context) :
  ctx_guild ctx = None ->
  only_avaliable ctx = true /\
  (forall others others' : list (Context -> bool),
     forallb (fun check => check ctx) (others ++ only_avaliable :: others') =
     forallb (fun check => check ctx) (others ++ others')).
Proof.
  intros Hg.
  assert (Htrue : only_avaliable ctx = true)
    by (unfold only_avaliable; now rewrite Hg).
  split; [exact Htrue|].
  intros others others'. rewrite !forallb_app. cbn [forallb].
  now rewrite Htrue.
Qed.

Lemma only_avaliable_direct_message_witness :
  only_avaliable
    {| ctx_message := direct_message; ctx_cls := TypedContext;
       ctx_prefix := Some "-"; ctx_invoked_with := Some "join";
       ctx_command := Some "join" |} = true /\
  (forall others others' : list (Context -> bool),
     forallb (fun check => check
                {| ctx_message := direct_message; ctx_cls := TypedContext;
                   ctx_prefix := Some "-"; ctx_invoked_with := Some "join";
                   ctx_command := Some "join" |})
             (others ++ only_avaliable :: others') =
     forallb (fun check => check
                {| ctx_message := direct_message; ctx_cls := TypedContext;
                   ctx_prefix := Some "-"; ctx_invoked_with := Some "join";
                   ctx_command := Some "join" |})
             (others ++ others')).
Proof.
  apply (only_avaliable_direct_message
           {| ctx_message := direct_message; ctx_cls := TypedContext;
              ctx_prefix := Some "-"; ctx_invoked_with := Some "join";
              ctx_command := Some "join" |}).
  reflexivity.
Defined.

(** The context built for a direct message has no guild, whatever its
    content. *)
Lemma get_context_direct w message cls s ctx s' :
  guild message = None ->
  get_context w message cls s = (Val ctx, s') -> ctx_guild ctx = None.
Proof.
  intros Hg Hctx.
  destruct (get_context_message w message cls s) as (ctx' & Hctx' & Hmsg).
  rewrite Hctx' in Hctx. injection Hctx as <- _.
  unfold ctx_guild. now rewrite Hmsg.
Qed.

(** C7.  On a bot that has [only_avaliable] among its global checks, a
    message written by a bot account, or coming from a guild marked
    unavailable, is processed without any command callback being run: the
    first kind returns before a context is built, the second is stopped by
    the check inside the invocation. *)
Theorem no_command_for_bots_or_outage w (message : Message) s :
  In only_avaliable (checks s) ->
  author_bot message = true \/
  (exists g, guild message = Some g /\ unavailable g = true) ->
  exists evs,
    process_commands w message s = (Val tt, log_events evs s) /\
    Forall (fun ev => is_command_run ev = false) evs.
Proof.
  intros Hin Hm. unfold process_commands.
  destruct (author_bot message) eqn:Hb.
  - exists []. split; [reflexivity | constructor].
  - destruct Hm as [Hm | (g & Hg & Hu)]; [discriminate|].
    rewrite Hg.
    destruct (get_context_message w message TypedGuildContext s) as (ctx & Hctx & Hmsg).
    rewrite (bind_val _ _ _ _ _ Hctx).
    destruct (invoke_out ctx s) as (evs & Hev & [Hno | (Hall & _)]).
    + exists evs. split; assumption.
    + exfalso. rewrite forallb_forall in Hall. specialize (Hall _ Hin).
      unfold only_avaliable, ctx_guild in Hall. rewrite Hmsg, Hg, Hu in Hall.
      discriminate.
Qed.

Lemma no_command_for_bots_or_outage_witness :
  (exists evs,
    process_commands healthy outage_message serving_bot = (Val tt, log_events evs serving_bot) /\
    Forall (fun ev => is_command_run ev = false) evs) /\
  (exists evs,
    process_commands healthy bot_message serving_bot = (Val tt, log_events evs serving_bot) /\
    Forall (fun ev => is_command_run ev = false) evs).
Proof.
  split.
  - apply (no_command_for_bots_or_outage healthy outage_message serving_bot).
    + simpl. left. reflexivity.
    + right. eexists. split; reflexivity.
  - apply (no_command_for_bots_or_outage healthy bot_message serving_bot).
    + simpl. left. reflexivity.
    + left. reflexivity.
Defined.

(** The same guild message is dispatched once the guild is available. *)
Example command_runs_when_available :
  out (snd (process_commands healthy
              {| author_bot := false;
                 guild := Some {| guild_id := 7; unavailable := false |};
                 content := "!join" |} serving_bot)) = [CommandRun "join"].
Proof. vm_compute. reflexivity. Qed.

(** ** The extension loader *)

Lemma load_extension_out w name s r s' :
  load_extension w name s = (r, s') -> out s' = out s ++ [LoadExtension name].
Proof.
  unfold load_extension, bind, emit, modify, get, raise. simpl.
  destruct (bool_decide _); [intros [= <- <-]; reflexivity|].
  destruct (w_ext_fault w name); intros [= <- <-]; reflexivity.
Qed.

Lemma load_extension_error w name s e s' :
  load_extension w name s = (Exc e, s') ->
  e = ExtensionAlreadyLoaded name \/
  exists cause, w_ext_fault w name = Some cause /\ e = ExtensionFailed name cause.
Proof.
  unfold load_extension, bind, emit, modify, get, raise. simpl.
  destruct (bool_decide _); [intros [= <- <-]; auto|].
  destruct (w_ext_fault w name) as [cause|]; intros [= <- <-]. eauto.
Qed.

Lemma load_extension_ends w name s : fst (load_extension w name s) <> Hang.
Proof.
  unfold load_extension, bind, emit, modify, get, raise. simpl.
  destruct (bool_decide _); [discriminate|].
  destruct (w_ext_fault w name); discriminate.
Qed.

(** Loading a run of modules that all load: one call each, in order. *)
Lemma load_all_out w (names : list string) : forall s s',
  for_each names (load_extension w) s = (Val tt, s') ->
  out s' = out s ++ map LoadExtension names.
Proof.
  induction names as [|n names IH]; simpl; intros s s'.
  - intros [= <-]. now rewrite app_nil_r.
  - unfold bind at 1. destruct (load_extension w n s) as [[[]| e |] s1] eqn:H1;
      try discriminate.
    intros H. apply IH in H. rewrite H.
    rewrite (load_extension_out _ _ _ _ _ H1), <- app_assoc. reflexivity.
Qed.

(** The loop stops at the first module that fails. *)
Lemma load_stops w (pre post : list string) k : forall s s1 e s2,
  for_each pre (load_extension w) s = (Val tt, s1) ->
  load_extension w k s1 = (Exc e, s2) ->
  for_each (pre ++ k :: post) (load_extension w) s = (Exc e, s2).
Proof.
  induction pre as [|n pre IH]; simpl; intros s s1 e s2.
  - intros [= <-] Hk. unfold bind. now rewrite Hk.
  - intros Hpre Hk. unfold bind at 1. unfold bind at 1 in Hpre.
    destruct (load_extension w n s) as [[[]| e' |] s']; try discriminate.
    eapply IH; eauto.
Qed.

Lemma for_each_ext {A} (xs : list A) (f g : A -> M unit) :
  (forall x, f x = g x) -> for_each xs f = for_each xs g.
Proof.
  intros H. induction xs as [|x xs IH]; simpl; [reflexivity|].
  now rewrite H, IH.
Qed.

Lemma for_each_map {A B} (h : A -> B) (xs : list A) (f : B -> M unit) :
  for_each (map h xs) f = for_each xs (fun x => f (h x)).
Proof. induction xs as [|x xs IH]; simpl; [reflexivity|]. now rewrite IH. Qed.

Lemma load_extensions_modnames w folder :
  load_extensions w folder =
  for_each (modnames folder (w_listdir w folder)) (load_extension w).
Proof. unfold load_extensions, modnames. now rewrite for_each_map. Qed.

Lemma modnames_app folder pre k post :
  endswith k ".py" = true ->
  modnames folder (pre ++ k :: post) =
  modnames folder pre ++ modname folder k :: modnames folder post.
Proof.
  intros Hk. unfold modnames. rewrite List.filter_app. simpl. rewrite Hk.
  now rewrite map_app.
Qed.

(** C6.  When the listing of a folder is [pre ++ k :: post], the modules of
    [pre] load and the activation of module [k] fails, the loader ends with
    that failure, which names the module and its cause, and the only
    activations it has asked for are those of [pre] and of [k], in order:
    no module of [post] is activated. *)
Theorem load_extensions_aborts w folder (pre post : list string) k s s1 e s2 :
  w_listdir w folder = pre ++ k :: post ->
  endswith k ".py" = true ->
  for_each (modnames folder pre) (load_extension w) s = (Val tt, s1) ->
  load_extension w (modname folder k) s1 = (Exc e, s2) ->
  load_extensions w folder s = (Exc e, s2) /\
  out s2 = out s ++ map LoadExtension (modnames folder pre ++ [modname folder k]) /\
  (e = ExtensionAlreadyLoaded (modname folder k) \/
   exists cause, w_ext_fault w (modname folder k) = Some cause /\
                 e = ExtensionFailed (modname folder k) cause).
Proof.
  intros Hdir Hk Hpre Hfail. split; [|split].
  - rewrite load_extensions_modnames, Hdir, modnames_app by exact Hk.
    eapply load_stops; eauto.
  - rewrite (load_extension_out _ _ _ _ _ Hfail), (load_all_out _ _ _ _ Hpre).
    now rewrite map_app, <- app_assoc.
  - eapply load_extension_error; eauto.
Qed.

Lemma load_extensions_aborts_witness :
  load_extensions second_cog_broken "cogs" new_bot =
    (Exc (ExtensionFailed "cogs.b" "setup raised"),
     log_event (LoadExtension "cogs.b")
       (register_extension "cogs.a" (log_event (LoadExtension "cogs.a") new_bot))) /\
  out (log_event (LoadExtension "cogs.b")
         (register_extension "cogs.a" (log_event (LoadExtension "cogs.a") new_bot))) =
    out new_bot ++ map LoadExtension (modnames "cogs" ["a.py"] ++ [modname "cogs" "b.py"]) /\
  (ExtensionFailed "cogs.b" "setup raised" = ExtensionAlreadyLoaded (modname "cogs" "b.py") \/
   exists cause, w_ext_fault second_cog_broken (modname "cogs" "b.py") = Some cause /\
                 ExtensionFailed "cogs.b" "setup raised" = ExtensionFailed (modname "cogs" "b.py") cause).
Proof.
  apply (load_extensions_aborts second_cog_broken "cogs" ["a.py"] ["c.py"] "b.py"
           new_bot (register_extension "cogs.a" (log_event (LoadExtension "cogs.a") new_bot))).
  - reflexivity.
  - reflexivity.
  - vm_compute. reflexivity.
  - vm_compute. reflexivity.
Defined.

(** The third module of the folder is never asked to load in that run. *)
Example third_cog_never_loaded :
  In (LoadExtension "cogs.b") (out (snd (run second_cog_broken))) /\
  ~ In (LoadExtension "cogs.c") (out (snd (run second_cog_broken))) /\
  ~ In (LoadExtension "extensions.database_handler") (out (snd (run second_cog_broken))).
Proof.
  vm_compute. repeat split; [tauto | intros H; intuition discriminate ..].
Qed.
(** ** Resource acquisition *)

Lemma acquire_redis_fails w s e : w_redis w = Some e -> acquire w s = (Exc e, s).
Proof. intros H. unfold acquire. rewrite H. reflexivity. Qed.

Lemma acquire_gathered w s :
  w_redis w = None ->
  acquire w s =
  match gather_behav [w_create_pool w; w_gtts_setup w] with
  | Completes d =>
      (Val tt, set_pool_gtts PoolHandle SpeechClient
                 (advance d (progress d (acquire_tasks w) (gathering s))))
  | Fails d e => (Exc e, advance d (progress d (acquire_tasks w) (gathering s)))
  | Never => (Hang, gathering s)
  end.
Proof.
  intros H. unfold acquire. rewrite H.
  unfold bind, modify, await_future, gather, for_each, bind, emit, modify, ret.
  cbn [f_tasks f_settle map t_run t_op].
  destruct (gather_behav _); reflexivity.
Qed.

Lemma held_acquired w d s :
  held (progress d (acquire_tasks w) s) = held s ++ acquired_by w d.
Proof.
  unfold progress, acquire_tasks, acquired_by. cbn [fold_left t_run t_done].
  destruct (completed_by d (w_create_pool w)), (completed_by d (w_gtts_setup w));
    simpl; rewrite <- ?app_assoc, ?app_nil_r; reflexivity.
Qed.

Lemma fields_acquired w d s :
  let s' := progress d (acquire_tasks w) s in
  clock s' = clock s /\ out s' = out s /\ pool s' = pool s /\ gtts s' = gtts s /\
  cache_db s' = cache_db s /\ user s' = user s.
Proof.
  unfold progress, acquire_tasks. cbn [fold_left t_run t_done].
  destruct (completed_by d (w_create_pool w)), (completed_by d (w_gtts_setup w));
    simpl; auto 10.
Qed.

Lemma gather2_complete b1 b2 m :
  gather_behav [b1; b2] = Completes m ->
  exists d1 d2, b1 = Completes d1 /\ b2 = Completes d2 /\ m = Nat.max d1 d2.
Proof.
  unfold gather_behav. destruct b1 as [d1|d1 e1|], b2 as [d2|d2 e2|]; simpl;
    try discriminate; try (destruct (d1 <=? d2)%nat; discriminate).
  intros [= <-]. exists d1, d2. rewrite Nat.max_0_r. auto.
Qed.

(** A normal end of the acquisition phase leaves the three attributes
    assigned. *)
Lemma acquire_populates w s a s' :
  acquire w s = (Val a, s') ->
  cache_db s' = Some CacheHandle /\ pool s' = Some PoolHandle /\
  gtts s' = Some SpeechClient.
Proof.
  destruct (w_redis w) as [e|] eqn:Hr.
  - rewrite (acquire_redis_fails _ _ _ Hr). discriminate.
  - rewrite (acquire_gathered _ _ Hr).
    destruct (gather_behav _) as [d|d e|]; try discriminate.
    intros [= _ <-]. cbn [cache_db pool gtts set_pool_gtts advance].
    split; [|auto].
    destruct (completed_by d (w_gtts_setup w)), (completed_by d (w_create_pool w));
      reflexivity.
Qed.

(** C2, as the code has it.  When the acquisition phase of [TTSBot.start]
    ends normally the three attributes are assigned and the three handles
    are held.  When it ends with an exception nothing has been released: a
    failure of the cache client leaves the bot as it was; a failure of one
    of the gathered acquisitions leaves the cache client held, together
    with whichever of the pool and the speech client had completed by the
    instant of the failure, and leaves [pool] and [gtts] unassigned. *)
Theorem acquire_outcome w s :
  match acquire w s with
  | (Val _, s') =>
      cache_db s' = Some CacheHandle /\ pool s' = Some PoolHandle /\
      gtts s' = Some SpeechClient /\
      held s' = held s ++ [CacheHandle; PoolHandle; SpeechClient]
  | (Exc e, s') =>
      (w_redis w = Some e /\ s' = s) \/
      (w_redis w = None /\ cache_db s' = Some CacheHandle /\
       pool s' = pool s /\ gtts s' = gtts s /\
       exists d, clock s' = clock s + d /\
                 held s' = held s ++ CacheHandle :: acquired_by w d)
  | (Hang, _) => True
  end.
Proof.
  destruct (w_redis w) as [e|] eqn:Hr.
  - rewrite (acquire_redis_fails _ _ _ Hr). left. auto.
  - rewrite (acquire_gathered _ _ Hr).
    destruct (gather_behav _) as [d|d e|] eqn:Hg; [| |exact I].
    + destruct (fields_acquired w d (gathering s)) as (_ & _ & _ & _ & Hc & _).
      cbn [cache_db pool gtts held set_pool_gtts advance].
      rewrite Hc, held_acquired. repeat split.
      apply gather2_complete in Hg as (d1 & d2 & H1 & H2 & ->).
      unfold acquired_by. rewrite H1, H2. cbn [completed_by].
      rewrite (proj2 (Nat.leb_le _ _) (Nat.le_max_l d1 d2)).
      rewrite (proj2 (Nat.leb_le _ _) (Nat.le_max_r d1 d2)).
      cbn. rewrite <- app_assoc. reflexivity.
    + right. destruct (fields_acquired w d (gathering s)) as (_ & _ & Hp & Hg' & Hc & _).
      cbn [cache_db pool gtts held clock advance].
      rewrite Hc, Hp, Hg', held_acquired. repeat split.
      exists d. split.
      * destruct (fields_acquired w d (gathering s)) as (-> & _). reflexivity.
      * cbn. rewrite <- app_assoc. reflexivity.
Qed.

(** C2 as stated fails: the database refuses the connection after the cache
    client and the speech client were obtained; [start] propagates the
    error with both still held, and the whole run ends without closing
    either. *)
Lemma acquire_leaks_on_failure :
  fst (acquire database_down new_bot) = Exc db_down /\
  held (snd (acquire database_down new_bot)) = [CacheHandle; SpeechClient] /\
  fst (run database_down) = Val tt /\
  held (snd (run database_down)) = [CacheHandle; SpeechClient] /\
  Forall (fun ev => is_release ev = false) (out (snd (run database_down))).
Proof. vm_compute. repeat split; repeat constructor. Qed.

(** C9, as the code has it.  The cache client is made first, by a
    synchronous call: when it fails nothing else is started.  Otherwise the
    pool and the speech client are started together; when both complete the
    phase ends at the later of the two completions, and when one fails the
    phase ends with the earliest failure at the instant it happens, whether
    or not the other has settled. *)
Theorem acquire_timing w s :
  match w_redis w with
  | Some e => acquire w s = (Exc e, s)
  | None =>
      out (snd (acquire w s)) = out s ++ [Scheduled CreatePool; Scheduled SetupSpeech] /\
      match w_create_pool w, w_gtts_setup w with
      | Completes d1, Completes d2 =>
          fst (acquire w s) = Val tt /\
          clock (snd (acquire w s)) = clock s + Nat.max d1 d2
      | Fails d1 e1, Fails d2 e2 =>
          if (d1 <=? d2)%nat
          then fst (acquire w s) = Exc e1 /\ clock (snd (acquire w s)) = clock s + d1
          else fst (acquire w s) = Exc e2 /\ clock (snd (acquire w s)) = clock s + d2
      | Fails d e, Completes _ | Fails d e, Never
      | Completes _, Fails d e | Never, Fails d e =>
          fst (acquire w s) = Exc e /\ clock (snd (acquire w s)) = clock s + d
      | Never, Completes _ | Completes _, Never | Never, Never =>
          fst (acquire w s) = Hang
      end
  end.
Proof.
  destruct (w_redis w) as [e|] eqn:Hr.
  - apply acquire_redis_fails, Hr.
  - rewrite (acquire_gathered _ _ Hr). split.
    + destruct (gather_behav _) as [d|d e|]; cbn [snd];
        try destruct (fields_acquired w d (gathering s)) as (_ & Ho & _);
        cbn [out set_pool_gtts advance]; rewrite ?Ho; cbn;
        rewrite <- app_assoc; reflexivity.
    + unfold gather_behav.
      destruct (w_create_pool w) as [d1|d1 e1|], (w_gtts_setup w) as [d2|d2 e2|];
        cbn [first_failure all_complete]; try destruct (d1 <=? d2)%nat;
        cbn [fst snd clock set_pool_gtts advance];
        try match goal with
            | |- context [progress ?d _ _] =>
                destruct (fields_acquired w d (gathering s)) as (-> & _)
            end;
        rewrite ?Nat.max_0_r; auto.
Qed.

(** C9 as stated fails: with the database refusing after 1 time unit and
    the speech client needing 3, [start] observes the failure at instant 1,
    two time units before the speech client settles. *)
Lemma acquire_fails_before_all_settle :
  w_gtts_setup database_down_early = Completes 3 /\
  fst (acquire database_down_early new_bot) = Exc db_down /\
  clock (snd (acquire database_down_early new_bot)) = 1 /\
  ~ In SpeechClient (held (snd (acquire database_down_early new_bot))).
Proof.
  vm_compute. repeat split. intros H. intuition discriminate.
Qed.
(** ** The release phase *)

Lemma wait_for_bounded b t :
  match wait_for_behav b t with
  | Completes d | Fails d _ => d <= t
  | Never => False
  end.
Proof.
  destruct b as [d|d e|]; simpl; [| |lia];
    destruct (d <? t)%nat eqn:Hd; try lia; apply Nat.ltb_lt in Hd; lia.
Qed.

Lemma release_seen_le d : release_seen d <= 5.
Proof.
  unfold release_seen. destruct (5 <=? d)%nat eqn:H; [lia|].
  apply Nat.leb_gt in H. lia.
Qed.

Lemma release_seen_before d : d < 5 -> release_seen d = d.
Proof.
  intros H. unfold release_seen. now rewrite (proj2 (Nat.leb_gt 5 d) H).
Qed.

Lemma completed_by_mono b d t : d <= t -> completed_by d b = true -> completed_by t b = true.
Proof.
  destruct b as [d'| |]; simpl; try discriminate.
  rewrite !Nat.leb_le. lia.
Qed.

Lemma closed_by_mono w r d t : d <= t -> closed_by w t r = false -> closed_by w d r = false.
Proof.
  intros Hle Ht. destruct (closed_by w d r) eqn:Hd; [|reflexivity].
  destruct r; simpl in *; try discriminate;
    rewrite (completed_by_mono _ _ _ Hle Hd) in Ht; discriminate.
Qed.

Lemma release_all_unset w s :
  pool s = None \/ cache_db s = None ->
  exists a, release_all w s = (Exc (AttributeError a), s).
Proof.
  intros H. unfold release_all, getattr, bind, get, ret, raise.
  destruct (pool s) as [p|] eqn:Hp.
  - destruct H as [H|H]; [discriminate|]. rewrite H. eauto.
  - eauto.
Qed.

Lemma release_all_started w s p c :
  pool s = Some p -> cache_db s = Some c ->
  release_all w s =
  match wait_for_behav (gather_behav (map t_run (release_tasks w))) 5 with
  | Completes d =>
      (Val tt, advance d (progress (release_seen d) (release_tasks w) (releasing s)))
  | Fails d e =>
      (Exc e, advance d (progress (release_seen d) (release_tasks w) (releasing s)))
  | Never => (Hang, releasing s)
  end.
Proof.
  intros Hp Hc. unfold release_all, getattr, bind at 1 2, get. rewrite Hp.
  unfold ret at 1. unfold bind at 1 2. rewrite Hc. unfold ret at 1.
  assert (He : forall d s0,
             effects (wait_for (gather (release_tasks w)) 5) d s0 =
             progress (release_seen d) (release_tasks w) s0).
  { intros d s0. unfold effects, release_seen. cbn [f_cut f_tasks wait_for gather].
    destruct (5 <=? d)%nat; reflexivity. }
  unfold await_future, bind at 1.
  destruct (for_each _ _ s) as [r0 s0] eqn:Hstart.
  assert (Hs0 : r0 = Val tt /\ s0 = releasing s).
  { revert Hstart. unfold wait_for, gather, release_tasks. cbn [f_tasks].
    unfold for_each, bind, emit, modify, ret. cbn [t_op t_begin].
    intros [= <- <-]. split; reflexivity. }
  destruct Hs0 as [-> ->].
  change (f_settle (wait_for (gather (release_tasks w)) 5))
    with (wait_for_behav (gather_behav (map t_run (release_tasks w))) 5).
  destruct (wait_for_behav _ _); rewrite ?He; reflexivity.
Qed.

Lemma fields_released w d s :
  let s' := progress d (release_tasks w) s in
  clock s' = clock s /\ out s' = out s /\ user s' = user s.
Proof.
  unfold progress, release_tasks. cbn [fold_left t_run t_done].
  destruct (completed_by d (w_pool_close w)), (completed_by d (w_cache_close w)),
    (completed_by d (w_bot_close w)); simpl; auto.
Qed.

Lemma In_unhold r r' s : In r (held (unhold r' s)) <-> In r (held s) /\ r <> r'.
Proof.
  unfold unhold. cbn [held]. rewrite <- !list_elem_of_In, list_elem_of_filter. tauto.
Qed.

(** What is still held [d] time units into the release phase. *)
Lemma held_released w d s r :
  In r (held (progress d (release_tasks w) s)) <->
  In r (held s) /\ closed_by w d r = false.
Proof.
  unfold progress, release_tasks. cbn [fold_left t_run t_done].
  destruct (completed_by d (w_pool_close w)) eqn:H1,
           (completed_by d (w_cache_close w)) eqn:H2,
           (completed_by d (w_bot_close w)) eqn:H3;
    rewrite ?In_unhold; destruct r; simpl; rewrite ?H1, ?H2, ?H3;
    intuition congruence.
Qed.

(** C4.  The release phase never stays suspended: it gives control back at
    most 5 time units after it began, however the three closes behave, and
    a handle whose close has not completed within those 5 time units is
    left as it was, still held. *)
Theorem release_within_deadline w s :
  fst (release_all w s) <> Hang /\
  clock (snd (release_all w s)) <= clock s + 5 /\
  (forall r, In r (held s) -> closed_by w 5 r = false ->
             In r (held (snd (release_all w s)))).
Proof.
  destruct (pool s) as [p|] eqn:Hp; [destruct (cache_db s) as [c|] eqn:Hc|].
  - rewrite (release_all_started w s p c Hp Hc).
    pose proof (wait_for_bounded (gather_behav (map t_run (release_tasks w))) 5) as Hb.
    destruct (wait_for_behav _ _) as [d|d e|]; [| |contradiction];
      (split; [discriminate|]);
      destruct (fields_released w (release_seen d) (releasing s)) as (Hck & _);
      cbn [snd clock advance]; rewrite Hck; (split; [cbn; lia|]);
      intros r Hin Hr; cbn [held advance]; apply held_released;
      (split; [exact Hin
              | eapply closed_by_mono; [apply release_seen_le | exact Hr]]).
  - destruct (release_all_unset w s (or_intror Hc)) as [a ->].
    cbn. repeat split; [discriminate | lia | auto].
  - destruct (release_all_unset w s (or_introl Hp)) as [a ->].
    cbn. repeat split; [discriminate | lia | auto].
Qed.

Lemma release_within_deadline_witness :
  fst (release_all cache_close_stuck serving_bot) <> Hang /\
  clock (snd (release_all cache_close_stuck serving_bot)) <= clock serving_bot + 5 /\
  In CacheHandle (held (snd (release_all cache_close_stuck serving_bot))).
Proof.
  destruct (release_within_deadline cache_close_stuck serving_bot) as (H1 & H2 & H3).
  split; [exact H1|]. split; [exact H2|].
  apply H3; [simpl; auto | reflexivity].
Defined.

(** With a cache that never answers the close request the release phase
    ends in [TimeoutError] exactly 5 time units after it began; the pool
    and the connection are closed, the cache handle is still held. *)
Example release_timeout :
  fst (release_all cache_close_stuck serving_bot) = Exc TimeoutError /\
  clock (snd (release_all cache_close_stuck serving_bot)) = clock serving_bot + 5 /\
  held (snd (release_all cache_close_stuck serving_bot)) = [CacheHandle; SpeechClient].
Proof. vm_compute. repeat split. Qed.

(** A close that takes exactly as long as the deadline is cancelled, the
    timer coming first: the release phase ends in [TimeoutError] and the
    connection is still held. *)
Example release_at_deadline :
  fst (release_all close_at_deadline serving_bot) = Exc TimeoutError /\
  clock (snd (release_all close_at_deadline serving_bot)) = clock serving_bot + 5 /\
  held (snd (release_all close_at_deadline serving_bot)) = [SpeechClient; Connection].
Proof. vm_compute. repeat split. Qed.

(** C5, as the code has it.  When the earliest failure among the three
    closes happens before the deadline, the release phase ends at that
    instant with that exception: nothing is printed, the three closes had
    all been started, and the handles still held are those whose close had
    not completed by then. *)
Theorem release_failure_propagates w s p c d e :
  pool s = Some p -> cache_db s = Some c ->
  first_failure (map t_run (release_tasks w)) = Some (d, e) ->
  d < 5 ->
  fst (release_all w s) = Exc e /\
  clock (snd (release_all w s)) = clock s + d /\
  out (snd (release_all w s)) =
    out s ++ [Scheduled ClosePool; Scheduled CloseCache; Scheduled CloseBot] /\
  (forall r, In r (held (snd (release_all w s))) <->
             In r (held s) /\ closed_by w d r = false).
Proof.
  intros Hp Hc Hf Hd. rewrite (release_all_started w s p c Hp Hc).
  unfold gather_behav. rewrite Hf. cbn [wait_for_behav].
  rewrite (proj2 (Nat.ltb_lt d 5) Hd), (release_seen_before d Hd). cbn [fst snd].
  destruct (fields_released w d (releasing s)) as (Hck & Ho & _).
  cbn [clock out held advance]. rewrite Hck, Ho.
  split; [reflexivity|]. split; [reflexivity|]. split.
  - cbn. rewrite <- !app_assoc. reflexivity.
  - intros r. exact (held_released w d (releasing s) r).
Qed.

Lemma release_failure_propagates_witness :
  fst (release_all pool_close_fails serving_bot) = Exc (Error "InterfaceError" "pool is closing") /\
  clock (snd (release_all pool_close_fails serving_bot)) = clock serving_bot + 1 /\
  out (snd (release_all pool_close_fails serving_bot)) =
    out serving_bot ++ [Scheduled ClosePool; Scheduled CloseCache; Scheduled CloseBot] /\
  (forall r, In r (held (snd (release_all pool_close_fails serving_bot))) <->
             In r (held serving_bot) /\ closed_by pool_close_fails 1 r = false).
Proof.
  apply (release_failure_propagates pool_close_fails serving_bot PoolHandle CacheHandle
           1 (Error "InterfaceError" "pool is closing")).
  - reflexivity.
  - reflexivity.
  - reflexivity.
  - lia.
Defined.

(** C5 as stated fails: the pool fails to close one time unit into the
    release phase.  [_real_main] ends with that exception, which was never
    printed, and the cache and the connection, whose closes would have
    completed within the deadline, are still held. *)
Lemma release_failure_escalates :
  fst (run pool_close_fails) = Exc (Error "InterfaceError" "pool is closing") /\
  ~ In (Print (get_error_string (Error "InterfaceError" "pool is closing")))
       (out (snd (run pool_close_fails))) /\
  ~ In (PrintException (Error "InterfaceError" "pool is closing"))
       (out (snd (run pool_close_fails))) /\
  closed_by pool_close_fails 5 CacheHandle = true /\
  closed_by pool_close_fails 5 Connection = true /\
  In CacheHandle (held (snd (run pool_close_fails))) /\
  In Connection (held (snd (run pool_close_fails))).
Proof.
  vm_compute. repeat split; try tauto; intros H; intuition discriminate.
Qed.
(** ** Properties kept along a whole run *)

Lemma hoare_and {A} (P P' : Bot -> Prop) (m : M A) Q Q' E E' :
  hoare P m Q E -> hoare P' m Q' E' ->
  hoare (fun s => P s /\ P' s) m (fun a s => Q a s /\ Q' a s) (fun s => E s /\ E' s).
Proof.
  intros H H' s [HP HP']. specialize (H s HP). specialize (H' s HP').
  destruct (m s) as [[a| e |] s']; auto.
Qed.

Section Invariant.
Variable w : World.
Variable I : Bot -> Prop.
Variable ok : event -> Prop.
Hypothesis I_log : forall ev s, ok ev -> I s -> I (log_event ev s).
Hypothesis I_advance : forall d s, I s -> I (advance d s).
Hypothesis I_set_clock : forall t s, I s -> I (set_clock t s).
Hypothesis I_hold : forall r s, I s -> I (hold r s).
Hypothesis I_unhold : forall r s, I s -> I (unhold r s).
Hypothesis I_clear : forall s, I s -> I (clear_extensions s).

Lemma emit_preserves ev : ok ev -> preserves I (emit ev).
Proof. intros Hev. apply preserves_modify. auto. Qed.

Lemma send_preserves name n : ok (WebhookSend name n) -> preserves I (send w name n).
Proof.
  intros Hev. unfold send. apply preserves_bind; [apply preserves_get|].
  intros s0. destruct (channels s0 !! name).
  - apply preserves_bind; [apply emit_preserves, Hev|].
    intros _. apply preserves_await, I_advance.
  - apply preserves_raise.
Qed.

Lemma getattr_preserves field name : preserves I (getattr field name).
Proof.
  unfold getattr. apply preserves_bind; [apply preserves_get|].
  intros s0. destruct (field s0); [apply preserves_ret | apply preserves_raise].
Qed.

Lemma release_all_preserves :
  (forall o, ok (Scheduled o)) -> preserves I (release_all w).
Proof.
  intros Hev. unfold release_all.
  apply preserves_bind; [apply getattr_preserves|]. intros _.
  apply preserves_bind; [apply getattr_preserves|]. intros _.
  apply preserves_await_future; auto;
    intros k s Hin Hs; cbn in Hin;
    destruct Hin as [<-|[<-|[<-|[]]]]; cbn; auto.
Qed.

Lemma shutdown_preserves :
  (forall o, ok (Scheduled o)) ->
  (forall u, ok (WebhookSend "logs" (ShuttingDown u))) ->
  preserves I (shutdown w).
Proof.
  intros Hsch Hsend. unfold shutdown.
  apply preserves_bind; [apply preserves_get|].
  intros s0. destruct (user s0) as [u|]; [|apply preserves_ret].
  apply preserves_bind; [apply send_preserves, Hsend|]. intros _.
  apply preserves_bind; [apply release_all_preserves, Hsch|]. intros _.
  apply preserves_ret.
Qed.

Lemma await_bot_task_preserves t_ready serve :
  preserves I (await_bot_task t_ready serve).
Proof. intros s Hs. destruct serve; cbn; auto. Qed.

Lemma task_exception_preserves t : preserves I (task_exception t).
Proof. destruct t; intros s Hs; exact Hs. Qed.

Section Startup.
Hypothesis I_set_cache_db : forall r s, I s -> I (set_cache_db r s).
Hypothesis I_set_pool_gtts : forall p g s, I s -> I (set_pool_gtts p g s).
Hypothesis I_set_channel : forall n u s, I s -> I (set_channel n u s).
Hypothesis I_register_extension : forall n s, I s -> I (register_extension n s).
Hypothesis I_set_user : forall u s, I s -> I (set_user u s).
Hypothesis ok_create_pool : ok (Scheduled CreatePool).
Hypothesis ok_setup_speech : ok (Scheduled SetupSpeech).
Hypothesis ok_load : forall n, ok (LoadExtension n).
Hypothesis ok_starting : ok (WebhookSend "logs" Starting).

Lemma acquire_preserves : preserves I (acquire w).
Proof.
  unfold acquire. apply preserves_bind.
  - destruct (w_redis w); [apply preserves_raise | apply preserves_modify; auto].
  - intros _. apply preserves_bind; [|intros _; apply preserves_modify; auto].
    apply preserves_await_future; auto;
      intros k s Hin Hs; cbn in Hin; destruct Hin as [<-|[<-|[]]]; cbn; auto.
Qed.

Lemma load_extension_preserves name : preserves I (load_extension w name).
Proof.
  unfold load_extension. apply preserves_bind; [apply emit_preserves, ok_load|].
  intros _. apply preserves_bind; [apply preserves_get|]. intros s0.
  destruct (bool_decide _); [apply preserves_raise|].
  destruct (w_ext_fault w name); [apply preserves_raise | apply preserves_modify; auto].
Qed.

Lemma load_extensions_preserves folder : preserves I (load_extensions w folder).
Proof.
  unfold load_extensions. apply preserves_for_each.
  intros ext. apply load_extension_preserves.
Qed.

Lemma webhooks_preserves :
  preserves I (for_each (w_webhooks w)
                 (fun '(channel_name, webhook_url) =>
                    modify (set_channel channel_name webhook_url))).
Proof. apply preserves_for_each. intros [n u]. apply preserves_modify. auto. Qed.

Lemma client_start_preserves : preserves I (client_start w).
Proof.
  unfold client_start. apply preserves_bind; [apply preserves_await, I_advance|].
  intros _. apply preserves_bind; [apply preserves_modify; auto|]. intros _.
  destruct (w_connect w) as [b|d serve].
  - apply preserves_bind; [apply preserves_await, I_advance|]. intros _.
    apply preserves_bind; [apply preserves_modify; auto|]. intros _.
    apply preserves_ret.
  - apply preserves_bind; [apply preserves_await, I_advance|]. intros _.
    apply preserves_ret.
Qed.

Lemma start_preserves : preserves I (start w).
Proof.
  unfold start.
  apply preserves_bind; [apply acquire_preserves|]. intros _.
  apply preserves_bind; [apply webhooks_preserves|]. intros _.
  apply preserves_bind; [apply load_extensions_preserves|]. intros _.
  apply preserves_bind; [apply load_extensions_preserves|]. intros _.
  apply preserves_bind; [apply send_preserves, ok_starting|]. intros _.
  apply preserves_bind; [apply preserves_await, I_advance|]. intros _.
  apply client_start_preserves.
Qed.

End Startup.
End Invariant.

(** What [asyncio.wait] leaves behind is what the bot task left behind. *)
Lemma wait_first_completed_hoare w (P : Bot -> Prop) Q E :
  hoare P (start w) Q E ->
  hoare P (wait_first_completed w)
        (fun _ s => (exists a, Q a s) \/ E s) E.
Proof.
  intros H s Hs. specialize (H s Hs). unfold wait_first_completed.
  destruct (start w s) as [[[|serve]| e |] s']; eauto.
Qed.

Lemma only_events_log P ev s :
  P ev = true -> only_events P s -> only_events P (log_event ev s).
Proof.
  intros Hev Hs. unfold only_events. cbn [out log_event].
  apply Forall_app. split; [exact Hs | repeat constructor; exact Hev].
Qed.
Lemma preserves_snd {A} (I : Bot -> Prop) (m : M A) s :
  preserves I m -> I s -> I (snd (m s)).
Proof.
  intros H Hs. specialize (H s Hs). destruct (m s) as [[a| e |] s']; exact H.
Qed.

Lemma preserves_try_finally {A} (I : Bot -> Prop) (body : M A) fin :
  preserves I body -> preserves I fin -> preserves I (try_finally body fin).
Proof.
  intros Hb Hf s Hs. specialize (Hb s Hs). unfold try_finally.
  destruct (body s) as [[a| e |] s']; auto;
    specialize (Hf s' Hb); destruct (fin s') as [[[a'|]| e' |] s'']; auto.
Qed.

Lemma only_events_logs P evs s :
  Forall (fun ev => P ev = true) evs -> only_events P s ->
  only_events P (log_events evs s).
Proof.
  intros Hevs. revert s. induction Hevs as [|ev evs Hev _ IH]; intros s Hs; cbn.
  - exact Hs.
  - apply IH, only_events_log; assumption.
Qed.

(** Startup never writes an event rejected by [P], as long as [P] accepts
    the events of startup. *)
Lemma start_only_events w P :
  P (Scheduled CreatePool) = true -> P (Scheduled SetupSpeech) = true ->
  (forall n, P (LoadExtension n) = true) ->
  P (WebhookSend "logs" Starting) = true ->
  preserves (only_events P) (start w).
Proof.
  intros. apply start_preserves with (ok := fun ev => P ev = true);
    auto using only_events_log.
Qed.

Lemma shutdown_only_events w P :
  (forall o, P (Scheduled o) = true) ->
  (forall u, P (WebhookSend "logs" (ShuttingDown u)) = true) ->
  preserves (only_events P) (shutdown w).
Proof.
  intros. apply shutdown_preserves with (ok := fun ev => P ev = true);
    auto using only_events_log.
Qed.

(** The shutdown sequence leaves [bot.user] as it found it. *)
Lemma shutdown_user w u : preserves (fun s => user s = u) (shutdown w).
Proof. apply shutdown_preserves with (ok := fun _ => True); auto. Qed.

(** ** The bot that comes out of startup *)

Lemma acquire_assigns w :
  hoare (fun s => user s = None) (acquire w)
        (fun _ s => user s = None /\ pool s = Some PoolHandle /\
                    cache_db s = Some CacheHandle)
        (fun s => user s = None).
Proof.
  intros s Hs.
  pose proof (acquire_preserves w (fun s => user s = None) (fun _ => True)) as Hu.
  specialize (Hu (fun _ _ _ H => H) (fun _ _ H => H) (fun _ _ H => H)
                 (fun _ _ H => H) (fun _ _ _ H => H) I I s Hs).
  destruct (acquire w s) as [[[]| e |] s'] eqn:Ha; auto.
  destruct (acquire_populates w s tt s' Ha) as (Hc & Hp & _). auto.
Qed.

Lemma send_needs_channel w name n :
  hoare (fun _ => True) (send w name n)
        (fun _ s => is_Some (channels s !! name)) (fun _ => True).
Proof.
  intros s _. unfold send, bind, get.
  destruct (channels s !! name) as [url|] eqn:Hch; [|exact I].
  unfold emit, modify, await. destruct (w_send w name n); cbn; auto.
Qed.

(** Whatever way [start] ends, a bot that has an identity has its pool, its
    cache client and its logs channel. *)
Lemma start_equipped w :
  hoare (fun s => user s = None) (start w)
        (fun _ => anonymous_or_equipped) anonymous_or_equipped.
Proof.
  set (R1 := fun s => user s = None /\ pool s = Some PoolHandle /\
                      cache_db s = Some CacheHandle).
  set (R2 := fun s => R1 s /\ is_Some (channels s !! "logs")).
  assert (Hstable : forall m : M unit,
             preserves R1 m -> hoare R1 m (fun _ => R1) anonymous_or_equipped).
  { intros m Hm. eapply hoare_conseq; [exact Hm | auto | auto |].
    intros s (Hu & _). left. exact Hu. }
  unfold start.
  eapply hoare_bind with (R := fun _ => R1).
  { eapply hoare_conseq; [apply acquire_assigns | auto | auto |].
    intros s Hu. left. exact Hu. }
  intros _. eapply hoare_bind with (R := fun _ => R1).
  { apply Hstable. apply webhooks_preserves. intros n u s H. exact H. }
  intros _. eapply hoare_bind with (R := fun _ => R1).
  { apply Hstable.
    apply load_extensions_preserves with (ok := fun _ => True); auto;
      intros; assumption. }
  intros _. eapply hoare_bind with (R := fun _ => R1).
  { apply Hstable.
    apply load_extensions_preserves with (ok := fun _ => True); auto;
      intros; assumption. }
  intros _. eapply hoare_bind with (R := fun _ => R2).
  { eapply hoare_conseq.
    - apply hoare_and.
      + apply (send_preserves w R1 (fun _ => True)); auto; intros; assumption.
      + apply send_needs_channel.
    - cbn. auto.
    - cbn. intros a s H. exact H.
    - cbn. intros s ((Hu & _) & _). left. exact Hu. }
  intros _. eapply hoare_bind with (R := fun _ => R2).
  { eapply hoare_conseq.
    - apply (preserves_await R2). intros d s H. exact H.
    - auto.
    - auto.
    - intros s ((Hu & _) & _). left. exact Hu. }
  intros _. eapply hoare_conseq.
  - apply (client_start_preserves w equipped); intros; assumption.
  - intros s Hs. unfold R2, R1 in Hs. destruct Hs as ((_ & Hp & Hc) & Hl).
    unfold equipped. auto.
  - intros a s H. right. exact H.
  - intros s H. right. exact H.
Qed.
(** ** The readiness race *)

Lemma hoare_try_except {A} (P : Bot -> Prop) (body : M A) handler Q E :
  hoare P body Q E -> (forall e, hoare E (handler e) Q E) ->
  hoare P (try_except body handler) Q E.
Proof.
  intros Hb Hh s Hs. specialize (Hb s Hs). unfold try_except.
  destruct (body s) as [[a| e |] s']; auto.
  destruct (is_Exception e); auto. apply (Hh e s' Hb).
Qed.

Lemma guarded_race_hoare w (P I : Bot -> Prop) (ok : event -> Prop) :
  (forall ev s, ok ev -> I s -> I (log_event ev s)) ->
  (forall d s, I s -> I (advance d s)) ->
  (forall t s, I s -> I (set_clock t s)) ->
  (forall r s, I s -> I (unhold r s)) ->
  (forall msg, ok (Print msg)) -> (forall e, ok (PrintException e)) ->
  (forall t, ok (WebhookSend "logs" (StartedReady t))) ->
  (forall msg s, P s -> P (log_event (Print msg) s)) ->
  hoare P (start w) (fun _ => I) I ->
  hoare P (guarded_race w) (fun _ => I) I.
Proof.
  intros I_log I_adv I_clk I_unh ok_print ok_tb ok_ready P_log Hstart.
  apply hoare_try_except;
    [|intros e; apply (emit_preserves I ok I_log), ok_print].
  unfold readiness_race.
  apply hoare_bind with (R := fun _ => P).
  { intros s Hs. cbn. apply P_log, Hs. }
  intros _.
  apply hoare_bind with (R := fun _ => I).
  { eapply hoare_conseq; [apply wait_first_completed_hoare, Hstart | auto | | auto].
    cbn. intros _ s [[_ H]|H]; exact H. }
  intros [error| |t_ready serve].
  - apply preserves_bind; [apply preserves_ret|]. intros error'.
    apply preserves_bind; [apply (emit_preserves I ok I_log), ok_print|].
    intros _. destruct error'; [apply (emit_preserves I ok I_log), ok_tb|apply preserves_ret].
  - apply preserves_bind; [apply preserves_raise|]. intros error'.
    apply preserves_bind; [apply (emit_preserves I ok I_log), ok_print|].
    intros _. destruct error'; [apply (emit_preserves I ok I_log), ok_tb|apply preserves_ret].
  - apply preserves_bind; [apply preserves_get|]. intros s0.
    apply preserves_bind; [apply (emit_preserves I ok I_log), ok_print|]. intros _.
    apply preserves_bind;
      [apply (send_preserves w I ok I_log I_adv), ok_ready|]. intros _.
    apply await_bot_task_preserves; auto.
Qed.

Lemma real_main_started w s d0 :
  w_early_updates w = Completes d0 ->
  _real_main w s =
  try_finally (guarded_race w) (shutdown w)
              (advance d0 (register_check only_avaliable s)).
Proof.
  intros H. unfold _real_main, bind, modify, await. rewrite H. reflexivity.
Qed.

Lemma race_failed w s error s1 :
  wait_first_completed w
    (log_event (Print (String "010" "Logging into Discord...")) s) =
    (Val (Finished error), s1) ->
  guarded_race w s = (Val tt, log_events (failed_report error) s1).
Proof.
  intros H. unfold guarded_race, try_except, readiness_race.
  unfold bind at 1. unfold print at 1, emit at 1, modify at 1.
  unfold bind at 1. rewrite H. cbn [task_exception].
  unfold bind, ret, print, emit, modify. destruct error; reflexivity.
Qed.

(** C3.  When [asyncio.wait] returns with the bot task done, whether the
    task returned or raised, the run prints the shutdown-before-ready line,
    prints the traceback of the error when there is one, and then does
    nothing but the [finally] block: its outcome is that of the shutdown
    sequence, the error of the bot task is not raised again.  No ready
    notice is ever sent in such a run. *)
Theorem failed_before_ready w d0 error s1 :
  w_early_updates w = Completes d0 ->
  wait_first_completed w (booting d0) = (Val (Finished error), s1) ->
  run w = match shutdown w (log_events (failed_report error) s1) with
          | (Val _, s2) => (Val tt, s2)
          | (Exc e, s2) => (Exc e, s2)
          | (Hang, s2) => (Hang, s2)
          end /\
  only_events (fun ev => negb (is_ready_notice ev)) (snd (run w)).
Proof.
  intros Hearly Hwait.
  assert (Hrun : run w = match shutdown w (log_events (failed_report error) s1) with
          | (Val _, s2) => (Val tt, s2)
          | (Exc e, s2) => (Exc e, s2)
          | (Hang, s2) => (Hang, s2)
          end).
  { unfold run. rewrite (real_main_started w new_bot d0 Hearly).
    unfold try_finally. rewrite (race_failed w _ error s1 Hwait).
    destruct (shutdown w _) as [[[[]|]| e |] s2]; reflexivity. }
  split; [exact Hrun|].
  set (P := fun ev => negb (is_ready_notice ev)).
  assert (H1 : only_events P s1).
  { pose proof (wait_first_completed_hoare w _ _ _
                  (start_only_events w P eq_refl eq_refl (fun _ => eq_refl) eq_refl)
                  (booting d0)) as H.
    rewrite Hwait in H. destruct H as [[_ H]|H]; try exact H;
      repeat constructor. }
  assert (H2 : only_events P (log_events (failed_report error) s1)).
  { apply only_events_logs; [|exact H1]. destruct error; repeat constructor. }
  pose proof (preserves_snd _ _ _
                (shutdown_only_events w P (fun _ => eq_refl) (fun _ => eq_refl)) H2) as H3.
  rewrite Hrun. destruct (shutdown w _) as [[a| e |] s2]; exact H3.
Qed.

Lemma failed_before_ready_witness :
  run database_down =
    match shutdown database_down
            (log_events (failed_report (Some db_down))
               (snd (wait_first_completed database_down (booting 0)))) with
    | (Val _, s2) => (Val tt, s2)
    | (Exc e, s2) => (Exc e, s2)
    | (Hang, s2) => (Hang, s2)
    end /\
  only_events (fun ev => negb (is_ready_notice ev)) (snd (run database_down)).
Proof.
  apply (failed_before_ready database_down 0 (Some db_down)).
  - reflexivity.
  - vm_compute. reflexivity.
Defined.

(** In that run the two lines are printed and the process ends normally,
    with nothing sent to the logs channel. *)
Example failed_before_ready_trace :
  run database_down =
    (Val tt, log_events (failed_report (Some db_down))
               (snd (wait_first_completed database_down (booting 0)))) /\
  out (snd (run database_down)) =
    [Print (String "010" "Logging into Discord..."); Scheduled CreatePool;
     Scheduled SetupSpeech; Print "Bot shutdown before ready!";
     PrintException db_down].
Proof. vm_compute. split; reflexivity. Qed.
(** A bot task that logged in and then lost the gateway before READY is
    reported the same way; having an identity, the bot then announces its
    shutdown and closes its three handles. *)
Example gateway_refuses_trace :
  fst (run gateway_refuses) = Val tt /\
  held (snd (run gateway_refuses)) = [SpeechClient] /\
  out (snd (run gateway_refuses)) =
    [Print (String "010" "Logging into Discord..."); Scheduled CreatePool;
     Scheduled SetupSpeech; LoadExtension "cogs.a"; LoadExtension "cogs.b";
     LoadExtension "cogs.c"; LoadExtension "extensions.database_handler";
     WebhookSend "logs" Starting; Print "Bot shutdown before ready!";
     PrintException (Error "PrivilegedIntentsRequired" "4014");
     WebhookSend "logs" (ShuttingDown "<@TTS Bot#0001>");
     Scheduled ClosePool; Scheduled CloseCache; Scheduled CloseBot].
Proof. vm_compute. repeat split. Qed.

(** ** The shutdown sequence *)

Lemma try_finally_snd {A} (body : M A) fin s :
  fst (body s) <> Hang ->
  snd (try_finally body fin s) = snd (fin (snd (body s))).
Proof.
  unfold try_finally. destruct (body s) as [[a| e |] s']; cbn; try congruence;
    intros _; destruct (fin s') as [[[a'|]| e' |] s'']; reflexivity.
Qed.

Lemma try_finally_hang {A} (body : M A) fin s :
  fst (body s) = Hang -> fst (try_finally body fin s) = Hang.
Proof.
  unfold try_finally. destruct (body s) as [[a| e |] s']; cbn; congruence.
Qed.

(** At the end of the guarded race a bot with an identity has its pool, its
    cache client and its logs channel. *)
Lemma guarded_race_equipped w :
  hoare (fun s => user s = None) (guarded_race w)
        (fun _ => anonymous_or_equipped) anonymous_or_equipped.
Proof.
  apply guarded_race_hoare with (ok := fun _ => True);
    auto using start_equipped.
Qed.

(** The guarded race starts no release operation. *)
Lemma guarded_race_no_release w :
  preserves (only_events (fun ev => negb (is_release ev))) (guarded_race w).
Proof.
  apply guarded_race_hoare with (ok := fun ev => negb (is_release ev) = true);
    auto using only_events_log.
  apply start_only_events; auto.
Qed.

(** The shutdown sequence on a bot with an identity whose notice is
    delivered: the notice, then the three closes. *)
Lemma shutdown_releases w s u d :
  user s = Some u -> equipped s ->
  w_send w "logs" (ShuttingDown (mention u)) = Completes d ->
  out (snd (shutdown w s)) =
  out s ++ [WebhookSend "logs" (ShuttingDown (mention u));
            Scheduled ClosePool; Scheduled CloseCache; Scheduled CloseBot].
Proof.
  intros Hu (Hp & Hc & [url Hl]) Hsend.
  unfold shutdown, bind at 1, get. rewrite Hu.
  unfold bind at 1. unfold send, bind at 1, get. rewrite Hl.
  unfold bind at 1, emit, modify, await. rewrite Hsend.
  unfold bind at 1.
  rewrite (release_all_started w
             (advance d (log_event (WebhookSend "logs" (ShuttingDown (mention u))) s))
             PoolHandle CacheHandle Hp Hc).
  destruct (wait_for_behav _ _) as [d'|d' e|]; cbn [snd ret];
    try destruct (fields_released w (release_seen d') (releasing
           (advance d (log_event (WebhookSend "logs" (ShuttingDown (mention u))) s))))
      as (_ & Ho & _);
    cbn [out advance]; rewrite ?Ho; cbn; rewrite <- !app_assoc; reflexivity.
Qed.

(** C1, as the code has it.  In a run that comes to an end, the releases
    depend on the guard of the [finally] block: when the bot has no
    identity at the end ([bot.user] is unset: the login never succeeded, or
    the early updates failed) no release operation is ever started; when it
    has one and the shutdown notice is delivered, the last things the run
    does are the notice and the start of the three closes, of the pool, of
    the cache and of the connection. *)
Theorem release_guarded_by_identity w :
  fst (run w) <> Hang ->
  match user (snd (run w)) with
  | None => only_events (fun ev => negb (is_release ev)) (snd (run w))
  | Some u =>
      forall d, w_send w "logs" (ShuttingDown (mention u)) = Completes d ->
      exists pre,
        out (snd (run w)) =
        pre ++ [WebhookSend "logs" (ShuttingDown (mention u));
                Scheduled ClosePool; Scheduled CloseCache; Scheduled CloseBot]
  end.
Proof.
  unfold run. destruct (w_early_updates w) as [d0|d0 e|] eqn:Hearly.
  - rewrite (real_main_started w new_bot d0 Hearly).
    set (s0 := advance d0 (register_check only_avaliable new_bot)).
    intros Hend.
    assert (Hbody : fst (guarded_race w s0) <> Hang).
    { intros H. apply Hend, try_finally_hang, H. }
    rewrite (try_finally_snd _ _ _ Hbody).
    pose proof (guarded_race_equipped w s0 eq_refl) as Heq.
    pose proof (guarded_race_no_release w s0 ltac:(constructor)) as Hno.
    destruct (guarded_race w s0) as [r s1] eqn:Hrace. cbn [snd].
    assert (Heq1 : anonymous_or_equipped s1) by (destruct r; exact Heq).
    assert (Hno1 : only_events (fun ev => negb (is_release ev)) s1)
      by (destruct r; exact Hno).
    clear Heq Hno.
    rewrite (preserves_snd _ _ s1 (shutdown_user w (user s1)) eq_refl).
    destruct (user s1) as [u|] eqn:Hu.
    + intros d Hsend. exists (out s1).
      destruct Heq1 as [Hnone|Hequipped]; [congruence|].
      apply (shutdown_releases w s1 u d Hu Hequipped Hsend).
    + unfold shutdown, bind, get. rewrite Hu. exact Hno1.
  - intros _. unfold _real_main, bind, modify, await. rewrite Hearly.
    cbn. constructor.
  - intros H. exfalso. apply H.
    unfold _real_main, bind, modify, await. rewrite Hearly. reflexivity.
Qed.

Lemma release_guarded_by_identity_witness :
  exists pre,
    out (snd (run healthy)) =
    pre ++ [WebhookSend "logs" (ShuttingDown (mention "TTS Bot#0001"));
            Scheduled ClosePool; Scheduled CloseCache; Scheduled CloseBot].
Proof.
  assert (Hend : fst (run healthy) <> Hang) by (vm_compute; discriminate).
  exact (release_guarded_by_identity healthy Hend 1 eq_refl).
Defined.

(** C1 as stated fails: the database refuses the connection, the bot task
    ends before READY, the [finally] block returns at once because the bot
    has no identity, and the run ends normally with the cache client and
    the speech client still held and no close ever started. *)
Lemma no_release_without_identity :
  fst (run database_down) = Val tt /\
  user (snd (run database_down)) = None /\
  held (snd (run database_down)) = [CacheHandle; SpeechClient] /\
  ~ In (Scheduled ClosePool) (out (snd (run database_down))) /\
  ~ In (Scheduled CloseCache) (out (snd (run database_down))) /\
  ~ In (Scheduled CloseBot) (out (snd (run database_down))).
Proof.
  vm_compute. repeat split; intros H; intuition discriminate.
Qed.

(** A healthy run that is terminated from outside closes everything it can
    close. *)
Example healthy_run :
  fst (run healthy) = Exc CancelledError /\
  held (snd (run healthy)) = [SpeechClient] /\
  out (snd (run healthy)) =
    [Print (String "010" "Logging into Discord..."); Scheduled CreatePool;
     Scheduled SetupSpeech; LoadExtension "cogs.a"; LoadExtension "cogs.b";
     LoadExtension "cogs.c"; LoadExtension "extensions.database_handler";
     WebhookSend "logs" Starting;
     Print "Logged in as TTS Bot#0001 and ready!";
     WebhookSend "logs" (StartedReady 6);
     WebhookSend "logs" (ShuttingDown "<@TTS Bot#0001>");
     Scheduled ClosePool; Scheduled CloseCache; Scheduled CloseBot].
Proof. vm_compute. repeat split. Qed.

(** The check registered by [_real_main] is the only global check of the
    bot for the whole run. *)
Lemma run_checks w : checks (snd (run w)) = [only_avaliable].
Proof.
  unfold run, _real_main. unfold bind at 1. unfold modify at 1.
  set (s0 := register_check only_avaliable new_bot).
  set (I := fun s => checks s = [only_avaliable]).
  change (I (snd (bind (await (w_early_updates w))
                       (fun _ => try_finally (guarded_race w) (shutdown w)) s0))).
  apply preserves_snd; [|reflexivity].
  apply preserves_bind; [apply preserves_await; auto|]. intros _.
  apply preserves_try_finally.
  - apply guarded_race_hoare with (ok := fun _ => True); auto.
    apply start_preserves with (ok := fun _ => True); auto.
  - apply shutdown_preserves with (ok := fun _ => True); auto.
Qed.

(** ** The trusted identifiers of [TTSBot.__init__] *)

Lemma append_cons c (a b : string) : String c a +:+ b = String c (a +:+ b).
Proof. reflexivity. Qed.

Lemma append_nil_l (s : string) : "" +:+ s = s.
Proof. reflexivity. Qed.

Lemma append_nil_r (s : string) : s +:+ "" = s.
Proof.
  induction s as [|c s IH]; [reflexivity | now rewrite append_cons, IH].
Qed.

Lemma append_assoc (a b c : string) : (a +:+ b) +:+ c = a +:+ (b +:+ c).
Proof.
  induction a as [|x a IH]; [reflexivity | now rewrite !append_cons, IH].
Qed.

Lemma length_append (a b : string) :
  String.length (a +:+ b) = String.length a + String.length b.
Proof.
  induction a as [|x a IH]; [reflexivity|].
  rewrite append_cons. simpl. now rewrite IH.
Qed.

Lemma prefix_split (p s : string) :
  String.prefix p s = true -> exists rest, s = p +:+ rest.
Proof.
  revert s. induction p as [|c p IH]; intros s H.
  - exists s. reflexivity.
  - destruct s as [|c' s]; simpl in H; [discriminate|].
    destruct (ascii_dec c c') as [<-|]; [|discriminate].
    destruct (IH s H) as [rest ->]. exists rest. reflexivity.
Qed.

Lemma split_from_nonempty sep : forall (s : string) k, split_from sep k s <> [].
Proof.
  induction s as [|c s IH]; intros k; cbn [split_from]; [easy|].
  destruct k; [|apply IH].
  destruct (String.prefix sep (String c s)); [easy|].
  destruct (split_from sep 0 s); easy.
Qed.

(** Passing over the rest of a matched separator. *)
Lemma split_from_skip sep (p s : string) :
  split_from sep (String.length p) (p +:+ s) = split_from sep 0 s.
Proof.
  induction p as [|c p IH]; [reflexivity|].
  rewrite append_cons. exact IH.
Qed.

Lemma join_cons_char sep c word words :
  join sep (String c word :: words) = String c (join sep (word :: words)).
Proof. destruct words; reflexivity. Qed.

Lemma join_split_from c0 sep' : forall n (s : string),
  String.length s <= n ->
  join (String c0 sep') (split_from (String c0 sep') 0 s) = s.
Proof.
  set (sep := String c0 sep').
  induction n as [|n IH]; intros s Hn.
  - destruct s; [reflexivity | simpl in Hn; lia].
  - destruct s as [|c s]; [reflexivity|].
    cbn [split_from]. destruct (String.prefix sep (String c s)) eqn:Hp.
    + apply prefix_split in Hp as [rest Hrest]. unfold sep in Hrest.
      rewrite append_cons in Hrest. injection Hrest as -> ->.
      change (String.length sep - 1) with (String.length sep' - 0).
      rewrite Nat.sub_0_r, split_from_skip.
      pose proof (split_from_nonempty sep rest 0) as Hne.
      destruct (split_from sep 0 rest) as [|word words] eqn:Hs; [congruence|].
      change (join sep ("" :: word :: words)) with (sep +:+ join sep (word :: words)).
      rewrite <- Hs, IH; [reflexivity|].
      simpl in Hn. rewrite length_append in Hn. lia.
    + pose proof (split_from_nonempty sep s 0) as Hne.
      destruct (split_from sep 0 s) as [|word words] eqn:Hs; [congruence|].
      rewrite join_cons_char, <- Hs, IH; [reflexivity|]. simpl in Hn. lia.
Qed.

(** X1.  Whatever the text of the option, [self.trusted] is never the empty
    list, and joining its elements with ", " gives back the stripped text:
    the split loses nothing.  A text that strips to nothing, such as "[]",
    gives the list whose single element is the empty string. *)
Theorem trusted_join (trusted_ids : string) :
  trusted trusted_ids <> [] /\
  join ", " (trusted trusted_ids) = strip "[]'" trusted_ids /\
  (strip "[]'" trusted_ids = "" -> trusted trusted_ids = [""]).
Proof.
  unfold trusted, split. split; [apply split_from_nonempty|]. split.
  - apply (join_split_from _ _ (String.length (strip "[]'" trusted_ids))). lia.
  - intros ->. reflexivity.
Qed.

Lemma trusted_join_witness : trusted "[]" = [""].
Proof.
  apply (proj2 (proj2 (trusted_join "[]"))). reflexivity.
Defined.

Lemma plain_no_comma c id :
  plain_id (String c id) = true -> c <> ","%char /\ char_in c "[]'" = false /\ plain_id id = true.
Proof.
  unfold plain_id. cbn [all_chars]. intros H.
  apply andb_true_iff in H as [Hc Hid]. apply negb_true_iff in Hc.
  cbn [char_in] in Hc. apply orb_false_iff in Hc as [Hcomma Hrest].
  repeat split; [|exact Hrest|exact Hid].
  intros ->. discriminate.
Qed.

(** A word without comma before the text: it ends up in front of the first
    word of the split. *)
Lemma split_plain_word (x s : string) :
  plain_id x = true ->
  split_from ", " 0 (x +:+ s) =
  match split_from ", " 0 s with
  | word :: words => (x +:+ word) :: words
  | [] => []
  end.
Proof.
  induction x as [|c x IH]; intros Hx.
  - rewrite append_nil_l. destruct (split_from ", " 0 s); reflexivity.
  - apply plain_no_comma in Hx as (Hc & _ & Hx).
    rewrite append_cons. cbn [split_from String.prefix].
    destruct (ascii_dec ","%char c) as [Heq|_]; [congruence|].
    rewrite (IH Hx). destruct (split_from ", " 0 s); [|reflexivity].
    exfalso. pose proof (split_from_nonempty ", " (x +:+ s) 0) as Hne.
    rewrite (IH Hx) in Hne. destruct (split_from ", " 0 s) eqn:E; congruence.
Qed.

Lemma prefix_append (p s : string) : String.prefix p (p +:+ s) = true.
Proof.
  induction p as [|c p IH]; [destruct s; reflexivity|].
  rewrite append_cons. cbn [String.prefix].
  destruct (ascii_dec c c); [exact IH | congruence].
Qed.

Lemma split_from_sep (s : string) :
  split_from ", " 0 (", " +:+ s) = "" :: split_from ", " 0 s.
Proof.
  pose proof (prefix_append ", " s) as Hp.
  change (", " +:+ s) with (String "," (" " +:+ s)) in *.
  cbn [split_from]. rewrite Hp.
  change (String.length ", " - 1) with (String.length " ").
  now rewrite split_from_skip.
Qed.

Lemma split_join_plain (ids : list string) :
  ids <> [] -> Forall (fun id => plain_id id = true) ids ->
  split ", " (join ", " ids) = ids.
Proof.
  unfold split. induction ids as [|id ids IH]; intros Hne Hall; [congruence|].
  apply Forall_cons in Hall as [Hid Hids].
  destruct ids as [|id2 ids'].
  - cbn [join]. rewrite <- (append_nil_r id) at 1.
    rewrite (split_plain_word _ _ Hid). cbn [split_from]. now rewrite append_nil_r.
  - change (join ", " (id :: id2 :: ids')) with (id +:+ ", " +:+ join ", " (id2 :: ids')).
    rewrite (split_plain_word _ _ Hid), split_from_sep.
    rewrite IH by (congruence || assumption).
    now rewrite append_nil_r.
Qed.

Lemma all_chars_append p (a b : string) :
  all_chars p (a +:+ b) = all_chars p a && all_chars p b.
Proof.
  induction a as [|c a IH]; [reflexivity|].
  rewrite append_cons. cbn [all_chars]. now rewrite IH, andb_assoc.
Qed.

Lemma all_chars_weaken (p q : ascii -> bool) (s : string) :
  (forall c, p c = true -> q c = true) ->
  all_chars p s = true -> all_chars q s = true.
Proof.
  intros Hpq. induction s as [|c s IH]; [reflexivity|]. cbn [all_chars].
  rewrite !andb_true_iff. intros [Hc Hs]. auto.
Qed.

Lemma rstrip_all_in chars (t : string) :
  all_chars (fun c => char_in c chars) t = true -> rstrip chars t = "".
Proof.
  induction t as [|c t IH]; [reflexivity|]. cbn [all_chars rstrip].
  rewrite andb_true_iff. intros [Hc Ht]. now rewrite (IH Ht), Hc.
Qed.

Lemma rstrip_append chars (b t : string) :
  all_chars (fun c => negb (char_in c chars)) b = true ->
  all_chars (fun c => char_in c chars) t = true ->
  rstrip chars (b +:+ t) = b.
Proof.
  intros Hb Ht. induction b as [|c b IH].
  - rewrite append_nil_l. apply rstrip_all_in, Ht.
  - cbn [all_chars] in Hb. apply andb_true_iff in Hb as [Hc Hb].
    apply negb_true_iff in Hc.
    rewrite append_cons. cbn [rstrip]. rewrite (IH Hb), Hc.
    destruct b; reflexivity.
Qed.

(** The characters removed by [strip] at line 68 are absent from a list of
    plain identifiers written with ", " between them. *)
Lemma join_plain (ids : list string) :
  Forall (fun id => plain_id id = true) ids ->
  all_chars (fun c => negb (char_in c "[]'")) (join ", " ids) = true.
Proof.
  assert (Hw : forall id, plain_id id = true ->
                all_chars (fun c => negb (char_in c "[]'")) id = true).
  { intros id. apply all_chars_weaken. intros c. cbn [char_in].
    rewrite !negb_true_iff, !orb_false_iff. tauto. }
  induction 1 as [|id ids Hid Hids IH]; [reflexivity|].
  destruct ids as [|id2 ids']; [apply Hw, Hid|].
  change (join ", " (id :: id2 :: ids')) with (id +:+ ", " +:+ join ", " (id2 :: ids')).
  rewrite !all_chars_append, (Hw id Hid), IH. reflexivity.
Qed.

Lemma strip_bracketed (body : string) :
  all_chars (fun c => negb (char_in c "[]'")) body = true ->
  strip "[]'" ("[" +:+ body +:+ "]") = body.
Proof.
  intros Hb. unfold strip.
  change ("[" +:+ body +:+ "]") with (String "[" (body +:+ "]")).
  cbn [lstrip]. change (char_in "[" "[]'") with true. cbv iota.
  destruct body as [|c body]; [reflexivity|].
  rewrite append_cons. cbn [lstrip].
  cbn [all_chars] in Hb. apply andb_true_iff in Hb as [Hc Hb].
  rewrite (proj1 (negb_true_iff _) Hc).
  rewrite <- append_cons. apply rstrip_append; [|reflexivity].
  cbn [all_chars]. now rewrite Hc, Hb.
Qed.

(** X2.  An option written as a bracketed list of one or more identifiers
    separated by ", ", the identifiers themselves free of commas, brackets
    and quotes, is read back as exactly that list. *)
Theorem trusted_round_trip (ids : list string) :
  ids <> [] ->
  Forall (fun id => plain_id id = true) ids ->
  trusted ("[" +:+ join ", " ids +:+ "]") = ids.
Proof.
  intros Hne Hall. unfold trusted.
  rewrite (strip_bracketed _ (join_plain ids Hall)).
  apply split_join_plain; assumption.
Qed.

Lemma trusted_round_trip_witness :
  trusted "[341486397917626381, 438418848811581452]" =
  ["341486397917626381"; "438418848811581452"].
Proof.
  apply (trusted_round_trip ["341486397917626381"; "438418848811581452"]).
  - discriminate.
  - repeat constructor.
Defined.

(** Quotes written around each identifier are removed at the two ends of
    the text only. *)
Example trusted_quoted :
  trusted "['341486397917626381', '438418848811581452']" =
  ["341486397917626381'"; "'438418848811581452"].
Proof. vm_compute. reflexivity. Qed.

(** ** Module names *)

Lemma substring_all (s : string) : String.substring 0 (String.length s) s = s.
Proof. induction s as [|c s IH]; [reflexivity|]. simpl. now rewrite IH. Qed.

Lemma substring_prefix (a b : string) :
  String.substring 0 (String.length a) (a +:+ b) = a.
Proof.
  induction a as [|c a IH]; [destruct b; reflexivity|].
  rewrite append_cons. simpl. now rewrite IH.
Qed.

Lemma substring_suffix (a b : string) :
  String.substring (String.length a) (String.length b) (a +:+ b) = b.
Proof.
  induction a as [|c a IH]; [apply substring_all|].
  rewrite append_cons. simpl. exact IH.
Qed.

Lemma substring_split (s : string) : forall k,
  k <= String.length s ->
  String.substring 0 k s +:+ String.substring k (String.length s - k) s = s.
Proof.
  induction s as [|c s IH]; intros k Hk.
  - simpl in Hk. replace k with 0 by lia. reflexivity.
  - destruct k as [|k].
    + rewrite Nat.sub_0_r, substring_all. reflexivity.
    + simpl in Hk. cbn [String.substring String.length Nat.sub].
      rewrite append_cons, IH by lia. reflexivity.
Qed.

Lemma endswith_append (stem suffix : string) : endswith (stem +:+ suffix) suffix = true.
Proof.
  unfold endswith. rewrite length_append.
  replace (String.length stem + String.length suffix - String.length suffix)
    with (String.length stem) by lia.
  rewrite substring_suffix, String.eqb_refl, andb_true_r.
  apply bool_decide_eq_true. lia.
Qed.

Lemma endswith_split (e suffix : string) :
  endswith e suffix = true ->
  e = drop_last (String.length suffix) e +:+ suffix.
Proof.
  unfold endswith, drop_last. rewrite andb_true_iff, bool_decide_eq_true.
  intros [Hlen Heq]. apply String.eqb_eq in Heq.
  pose proof (substring_split e (String.length e - String.length suffix)) as H.
  replace (String.length e - (String.length e - String.length suffix))
    with (String.length suffix) in H by lia.
  rewrite Heq in H. symmetry. apply H. lia.
Qed.

(** X3.  The entries [load_extensions] keeps are exactly the names made of a
    stem followed by ".py", and the module it asks for is the folder, a
    dot and that stem: cutting the last three characters undoes the
    suffix. *)
Theorem modname_stem (folder e : string) :
  (endswith e ".py" = true <-> exists stem, e = stem +:+ ".py") /\
  (forall stem, modname folder (stem +:+ ".py") = folder +:+ "." +:+ stem).
Proof.
  split; [split|].
  - intros H. exists (drop_last 3 e). exact (endswith_split e ".py" H).
  - intros [stem ->]. apply endswith_append.
  - intros stem. unfold modname, drop_last. rewrite length_append.
    replace (String.length stem + String.length ".py" - 3) with (String.length stem)
      by (simpl; lia).
    now rewrite substring_prefix.
Qed.

(** ** More on the extension loader *)

Lemma load_extension_fresh w name s :
  ~ In name (extensions s) -> w_ext_fault w name = None ->
  load_extension w name s =
  (Val tt, register_extension name (log_event (LoadExtension name) s)).
Proof.
  intros Hin Hf. unfold load_extension, bind, emit, modify, get.
  rewrite bool_decide_eq_false_2 by (cbn; now rewrite list_elem_of_In).
  rewrite Hf. reflexivity.
Qed.

Lemma load_extension_known w name s :
  In name (extensions s) ->
  load_extension w name s =
  (Exc (ExtensionAlreadyLoaded name), log_event (LoadExtension name) s).
Proof.
  intros Hin. unfold load_extension, bind, emit, modify, get.
  rewrite bool_decide_eq_true_2 by (cbn; now rewrite list_elem_of_In).
  reflexivity.
Qed.

Lemma load_all_fresh w (names : list string) : forall s,
  NoDup names ->
  (forall n, In n names -> ~ In n (extensions s) /\ w_ext_fault w n = None) ->
  exists s',
    for_each names (load_extension w) s = (Val tt, s') /\
    extensions s' = extensions s ++ names /\
    out s' = out s ++ map LoadExtension names.
Proof.
  induction names as [|n names IH]; intros s Hnd Hok.
  - exists s. cbn. now rewrite !app_nil_r.
  - apply NoDup_cons in Hnd as [Hn Hnd].
    destruct (Hok n (or_introl eq_refl)) as [Hfresh Hfault].
    cbn [for_each]. unfold bind at 1.
    rewrite (load_extension_fresh w n s Hfresh Hfault).
    destruct (IH (register_extension n (log_event (LoadExtension n) s)) Hnd)
      as (s' & Hrun & Hext & Hout).
    { intros m Hm. destruct (Hok m (or_intror Hm)) as [Hm1 Hm2].
      split; [|exact Hm2]. cbn [extensions register_extension log_event].
      rewrite in_app_iff. intros [H|[->|[]]]; [auto|].
      apply Hn. now apply list_elem_of_In. }
    exists s'. split; [exact Hrun|].
    rewrite Hext, Hout. cbn. now rewrite <- !app_assoc.
Qed.

(** X4.  When the modules of a folder are pairwise distinct, none is
    registered yet and none fails, [load_extensions] ends normally having
    asked for each of them once, in listing order, and the bot's
    extensions are the former ones followed by these modules in the same
    order. *)
Theorem load_extensions_registers w folder s :
  NoDup (modnames folder (w_listdir w folder)) ->
  (forall n, In n (modnames folder (w_listdir w folder)) ->
             ~ In n (extensions s) /\ w_ext_fault w n = None) ->
  exists s',
    load_extensions w folder s = (Val tt, s') /\
    extensions s' = extensions s ++ modnames folder (w_listdir w folder) /\
    out s' = out s ++ map LoadExtension (modnames folder (w_listdir w folder)).
Proof.
  intros Hnd Hok. rewrite load_extensions_modnames.
  apply load_all_fresh; assumption.
Qed.

Lemma load_extensions_registers_witness :
  exists s',
    load_extensions healthy "cogs" new_bot = (Val tt, s') /\
    extensions s' = extensions new_bot ++ modnames "cogs" (w_listdir healthy "cogs") /\
    out s' = out new_bot ++ map LoadExtension (modnames "cogs" (w_listdir healthy "cogs")).
Proof.
  apply (load_extensions_registers healthy "cogs" new_bot).
  - vm_compute. repeat constructor; intros H; inversion H; subst;
      repeat match goal with
             | H : _ ∈ _ :: _ |- _ => inversion H; subst; clear H
             | H : _ ∈ [] |- _ => inversion H
             end.
  - intros n Hn. split; [intros []|reflexivity].
Defined.

(** X5.  Whatever the listing and the modules do, [load_extensions] comes
    to an end, and what it has asked to load is an initial part of the
    modules of the ".py" entries, in listing order: no other name is ever
    asked for, none is skipped, and a normal end means all were asked. *)
Theorem load_extensions_trace w folder s :
  fst (load_extensions w folder s) <> Hang /\
  exists asked rest,
    modnames folder (w_listdir w folder) = asked ++ rest /\
    out (snd (load_extensions w folder s)) = out s ++ map LoadExtension asked /\
    (fst (load_extensions w folder s) = Val tt -> rest = []).
Proof.
  rewrite load_extensions_modnames.
  generalize (modnames folder (w_listdir w folder)) as names.
  intros names. revert s. induction names as [|n names IH]; intros s.
  - split; [discriminate|]. exists [], []. cbn. now rewrite app_nil_r.
  - cbn [for_each]. unfold bind at 1 2 3.
    pose proof (load_extension_ends w n s) as Hend.
    destruct (load_extension w n s) as [[[]| e |] s1] eqn:H1.
    + apply load_extension_out in H1.
      destruct (IH s1) as (Hh & asked & rest & Hn & Hout & Hval).
      split; [exact Hh|]. exists (n :: asked), rest.
      split; [now rewrite Hn|]. split; [|exact Hval].
      rewrite Hout, H1. cbn. now rewrite <- app_assoc.
    + apply load_extension_out in H1. split; [discriminate|].
      exists [n], names. cbn [fst snd]. repeat split; [exact H1 | discriminate].
    + exfalso. apply Hend. reflexivity.
Qed.

Lemma load_all_known w (names : list string) : forall s s',
  for_each names (load_extension w) s = (Val tt, s') ->
  forall n, In n names \/ In n (extensions s) -> In n (extensions s').
Proof.
  induction names as [|m names IH]; intros s s'.
  - intros [= <-] n [[]|H]. exact H.
  - cbn [for_each]. unfold bind at 1.
    destruct (load_extension w m s) as [[[]| e |] s1] eqn:H1; try discriminate.
    intros Hrest n Hn. apply (IH s1 s' Hrest).
    assert (Hs1 : extensions s1 = extensions s ++ [m]).
    { revert H1. unfold load_extension, bind, emit, modify, get, raise.
      destruct (bool_decide _); [discriminate|].
      destruct (w_ext_fault w m); [discriminate|]. intros [= <-]. reflexivity. }
    rewrite Hs1, in_app_iff. cbn. destruct Hn as [[->|Hn]|Hn]; auto.
Qed.

(** X6.  After [load_extensions] has gone through a folder successfully,
    going through the same listing again stops at its first module, which
    discord.py refuses as already loaded: nothing more is registered. *)
Theorem load_extensions_again w folder s s' first others :
  load_extensions w folder s = (Val tt, s') ->
  modnames folder (w_listdir w folder) = first :: others ->
  load_extensions w folder s' =
  (Exc (ExtensionAlreadyLoaded first), log_event (LoadExtension first) s').
Proof.
  rewrite !load_extensions_modnames. intros Hrun Hnames. rewrite Hnames in *.
  cbn [for_each]. unfold bind at 1.
  rewrite load_extension_known; [reflexivity|].
  apply (load_all_known w _ s s' Hrun). left. left. reflexivity.
Qed.

Lemma load_extensions_again_witness :
  load_extensions healthy "cogs" (snd (load_extensions healthy "cogs" new_bot)) =
  (Exc (ExtensionAlreadyLoaded "cogs.a"),
   log_event (LoadExtension "cogs.a") (snd (load_extensions healthy "cogs" new_bot))).
Proof.
  apply (load_extensions_again healthy "cogs" new_bot _ "cogs.a" ["cogs.b"; "cogs.c"]).
  - vm_compute. reflexivity.
  - vm_compute. reflexivity.
Defined.

(** ** More on the shutdown sequence *)

Lemma try_finally_after {A} (body : M A) fin s :
  fst (body s) <> Hang ->
  try_finally body fin s = after_finally (fst (body s)) (fin (snd (body s))).
Proof.
  unfold try_finally, after_finally.
  destruct (body s) as [[a| e |] s']; cbn [fst snd]; try congruence;
    intros _; destruct (fin s') as [[[a'|]| e' |] s'']; reflexivity.
Qed.

(** X7.  A run in which the early updates complete and that comes to an end
    without the bot ever getting an identity ends normally: the [return]
    of the [finally] block discards whatever was pending, an exception of
    the bot task as well as a cancellation. *)
Theorem anonymous_run_ends_normally w d0 :
  w_early_updates w = Completes d0 ->
  fst (run w) <> Hang ->
  user (snd (run w)) = None ->
  fst (run w) = Val tt.
Proof.
  intros Hearly. unfold run. rewrite (real_main_started w new_bot d0 Hearly).
  set (s0 := advance d0 (register_check only_avaliable new_bot)).
  intros Hend.
  assert (Hbody : fst (guarded_race w s0) <> Hang).
  { intros H. apply Hend, try_finally_hang, H. }
  rewrite (try_finally_snd _ _ _ Hbody), (try_finally_after _ _ _ Hbody).
  rewrite (preserves_snd _ _ _ (shutdown_user w (user (snd (guarded_race w s0)))) eq_refl).
  intros Hu. unfold shutdown, bind, get. rewrite Hu. reflexivity.
Qed.

Lemma anonymous_run_ends_normally_witness :
  fst (run login_cancelled) = Val tt.
Proof.
  apply (anonymous_run_ends_normally login_cancelled 0).
  - reflexivity.
  - vm_compute. discriminate.
  - vm_compute. reflexivity.
Defined.

Lemma shutdown_notice w s u url :
  user s = Some u ->
  channels s !! "logs" = Some url ->
  shutdown w s =
  match w_send w "logs" (ShuttingDown (mention u)) with
  | Completes d =>
      bind (release_all w) (fun _ => ret None)
           (advance d (log_event (WebhookSend "logs" (ShuttingDown (mention u))) s))
  | Fails d e =>
      (Exc e, advance d (log_event (WebhookSend "logs" (ShuttingDown (mention u))) s))
  | Never => (Hang, log_event (WebhookSend "logs" (ShuttingDown (mention u))) s)
  end.
Proof.
  intros Hu Hl.
  unfold shutdown, bind at 1, get. rewrite Hu.
  unfold bind at 1. unfold send, bind at 1, get. rewrite Hl.
  unfold bind at 1, emit, modify, await.
  destruct (w_send w "logs" (ShuttingDown (mention u))); reflexivity.
Qed.

(** X8.  The deadline covers the three closes only.  When the shutdown
    notice is not delivered the sequence stops there: nothing but the
    notice is added to the trace, no close is started and every handle
    stays held; and when the webhook never answers, the shutdown sequence
    never ends. *)
Theorem shutdown_notice_unbounded w s u url :
  user s = Some u ->
  channels s !! "logs" = Some url ->
  (forall d, w_send w "logs" (ShuttingDown (mention u)) <> Completes d) ->
  out (snd (shutdown w s)) = out s ++ [WebhookSend "logs" (ShuttingDown (mention u))] /\
  held (snd (shutdown w s)) = held s /\
  ((exists e, fst (shutdown w s) = Exc e) \/ fst (shutdown w s) = Hang) /\
  (w_send w "logs" (ShuttingDown (mention u)) = Never -> fst (shutdown w s) = Hang).
Proof.
  intros Hu Hl Hsend. rewrite (shutdown_notice w s u url Hu Hl).
  destruct (w_send w "logs" (ShuttingDown (mention u))) as [d|d e|] eqn:Hb.
  - exfalso. exact (Hsend d eq_refl).
  - cbn [fst snd out held advance log_event].
    split; [reflexivity|]. split; [reflexivity|]. split; [eauto|discriminate].
  - cbn [fst snd out held advance log_event].
    split; [reflexivity|]. split; [reflexivity|]. split; [right|]; reflexivity.
Qed.

Lemma shutdown_notice_unbounded_witness :
  out (snd (shutdown shutdown_notice_stuck serving_bot)) =
    out serving_bot ++ [WebhookSend "logs" (ShuttingDown (mention "TTS Bot#0001"))] /\
  held (snd (shutdown shutdown_notice_stuck serving_bot)) = held serving_bot /\
  ((exists e, fst (shutdown shutdown_notice_stuck serving_bot) = Exc e) \/
   fst (shutdown shutdown_notice_stuck serving_bot) = Hang) /\
  (w_send shutdown_notice_stuck "logs" (ShuttingDown (mention "TTS Bot#0001")) = Never ->
   fst (shutdown shutdown_notice_stuck serving_bot) = Hang).
Proof.
  apply (shutdown_notice_unbounded shutdown_notice_stuck serving_bot "TTS Bot#0001"
           "https://discord.test/api/webhooks/1/logs").
  - reflexivity.
  - reflexivity.
  - intros d. discriminate.
Defined.

Lemma gather3_complete d1 d2 d3 :
  gather_behav [Completes d1; Completes d2; Completes d3] =
  Completes (Nat.max d1 (Nat.max d2 d3)).
Proof. unfold gather_behav. cbn. now rewrite Nat.max_0_r. Qed.

(** X9.  When the notice is delivered and the three closes complete before
    the deadline of 5 time units expires, the shutdown sequence runs off its
    end at the instant the slowest close completes, not after the sum of the
    three, and of the handles held before only the speech client, which has
    no close, is still held. *)
Theorem shutdown_completes w s u dn d1 d2 d3 :
  user s = Some u -> equipped s ->
  w_send w "logs" (ShuttingDown (mention u)) = Completes dn ->
  w_pool_close w = Completes d1 ->
  w_cache_close w = Completes d2 ->
  w_bot_close w = Completes d3 ->
  d1 < 5 -> d2 < 5 -> d3 < 5 ->
  fst (shutdown w s) = Val None /\
  clock (snd (shutdown w s)) = clock s + dn + Nat.max d1 (Nat.max d2 d3) /\
  (forall r, In r (held (snd (shutdown w s))) <-> In r (held s) /\ r = SpeechClient).
Proof.
  intros Hu (Hp & Hc & [url Hl]) Hsend H1 H2 H3 Hd1 Hd2 Hd3.
  set (m := Nat.max d1 (Nat.max d2 d3)).
  assert (Hm : m < 5) by (unfold m; lia).
  set (sn := advance dn (log_event (WebhookSend "logs" (ShuttingDown (mention u))) s)).
  assert (Hg : wait_for_behav (gather_behav (map t_run (release_tasks w))) 5 = Completes m).
  { unfold release_tasks. cbn [map t_run]. rewrite H1, H2, H3, gather3_complete.
    fold m. cbn [wait_for_behav]. now rewrite (proj2 (Nat.ltb_lt m 5) Hm). }
  assert (Hsd : shutdown w s =
                (Val None, advance m (progress m (release_tasks w) (releasing sn)))).
  { rewrite (shutdown_notice w s u url Hu Hl), Hsend. unfold bind. fold sn.
    rewrite (release_all_started w sn PoolHandle CacheHandle Hp Hc), Hg.
    rewrite (release_seen_before m Hm). reflexivity. }
  rewrite Hsd. cbn [fst snd].
  destruct (fields_released w m (releasing sn)) as (Hck & _ & _).
  cbn [clock advance]. rewrite Hck. unfold sn.
  cbn [clock advance releasing clear_extensions log_events fold_left log_event].
  split; [reflexivity|]. split; [lia|].
  intros r. cbn [held advance]. rewrite held_released.
  change (held (releasing sn)) with (held s).
  assert (Hc1 : completed_by m (w_pool_close w) = true)
    by (rewrite H1; apply Nat.leb_le; unfold m; lia).
  assert (Hc2 : completed_by m (w_cache_close w) = true)
    by (rewrite H2; apply Nat.leb_le; unfold m; lia).
  assert (Hc3 : completed_by m (w_bot_close w) = true)
    by (rewrite H3; apply Nat.leb_le; unfold m; lia).
  destruct r; cbn [closed_by]; rewrite ?Hc1, ?Hc2, ?Hc3; intuition congruence.
Qed.

Lemma shutdown_completes_witness :
  fst (shutdown healthy serving_bot) = Val None /\
  clock (snd (shutdown healthy serving_bot)) = clock serving_bot + 1 + Nat.max 1 (Nat.max 3 2) /\
  (forall r, In r (held (snd (shutdown healthy serving_bot))) <->
             In r (held serving_bot) /\ r = SpeechClient).
Proof.
  apply (shutdown_completes healthy serving_bot "TTS Bot#0001" 1 1 3 2);
    try reflexivity; try lia.
  repeat split; try reflexivity. eexists. reflexivity.
Defined.

Lemma all_complete_by (bs : list behav) : forall m,
  all_complete bs = Some m -> forall b, In b bs -> completed_by m b = true.
Proof.
  induction bs as [|b0 bs IH]; intros m Hm b Hb; [destruct Hb|].
  cbn [all_complete] in Hm. destruct b0 as [d| |]; try discriminate.
  destruct (all_complete bs) as [m'|] eqn:Hbs; [|discriminate].
  injection Hm as <-. destruct Hb as [<-|Hb].
  - apply Nat.leb_le. lia.
  - eapply completed_by_mono; [|apply (IH m' eq_refl b Hb)]. lia.
Qed.

(** X10.  When no close fails within the deadline and one of the three has
    not completed by then, the release phase ends in [TimeoutError] exactly
    5 time units after it began. *)
Theorem release_times_out w s p c r :
  pool s = Some p -> cache_db s = Some c ->
  (forall d e, first_failure (map t_run (release_tasks w)) = Some (d, e) -> 5 < d) ->
  r <> SpeechClient -> closed_by w 5 r = false ->
  fst (release_all w s) = Exc TimeoutError /\
  clock (snd (release_all w s)) = clock s + 5.
Proof.
  intros Hp Hc Hfail Hr Hopen.
  assert (Hw : wait_for_behav (gather_behav (map t_run (release_tasks w))) 5 =
               Fails 5 TimeoutError).
  { unfold gather_behav.
    destruct (first_failure _) as [[d e]|] eqn:Hf.
    - specialize (Hfail d e eq_refl). cbn [wait_for_behav].
      now rewrite (proj2 (Nat.ltb_ge d 5) (Nat.lt_le_incl _ _ Hfail)).
    - destruct (all_complete _) as [m|] eqn:Hm; [|reflexivity].
      cbn [wait_for_behav]. destruct (m <? 5)%nat eqn:Hlt; [|reflexivity].
      exfalso. apply Nat.ltb_lt in Hlt.
      assert (Hle : m <= 5) by lia.
      pose proof (all_complete_by _ m Hm) as Hall.
      assert (Hclosed : closed_by w 5 r = true).
      { destruct r; cbn [closed_by]; try congruence;
          (eapply completed_by_mono; [exact Hle|]); apply Hall; cbn; auto. }
      congruence. }
  rewrite (release_all_started w s p c Hp Hc), Hw. cbn [fst snd].
  destruct (fields_released w (release_seen 5) (releasing s)) as (Hck & _).
  cbn [clock advance]. rewrite Hck. split; reflexivity.
Qed.

Lemma release_times_out_witness :
  fst (release_all cache_close_stuck serving_bot) = Exc TimeoutError /\
  clock (snd (release_all cache_close_stuck serving_bot)) = clock serving_bot + 5.
Proof.
  apply (release_times_out cache_close_stuck serving_bot PoolHandle CacheHandle CacheHandle).
  - reflexivity.
  - reflexivity.
  - intros d e. vm_compute. discriminate.
  - discriminate.
  - reflexivity.
Defined.

(** ** After READY *)

Lemma hoare_trivial {A} (P : Bot -> Prop) (m : M A) :
  hoare P m (fun _ _ => True) (fun _ => True).
Proof. intros s _. destruct (m s) as [[a| e |] s']; exact I. Qed.

(** A bot task that reports READY has logged in with the account of the
    token. *)
Lemma start_identity w :
  hoare (fun _ => True) (start w)
        (fun a s => match a with
                    | AtReady _ => user s = Some (w_user w)
                    | Returned => True
                    end)
        (fun _ => True).
Proof.
  unfold start.
  do 6 (eapply hoare_bind with (R := fun _ _ => True);
        [apply hoare_trivial | intros _]).
  intros s _. unfold client_start, bind, await, modify.
  destruct (w_login w) as [d|d e|]; try exact I.
  destruct (w_connect w) as [b|d' serve]; cbn.
  - destruct b; exact I.
  - reflexivity.
Qed.

Lemma ready_state w d0 t serve s1 :
  wait_first_completed w (booting d0) = (Val (Pending t serve), s1) ->
  t = clock s1 /\ user s1 = Some (w_user w) /\ equipped s1 /\
  only_events (fun ev => negb (is_ready_notice ev)) s1.
Proof.
  unfold wait_first_completed. intros H.
  pose proof (start_identity w (booting d0) I) as Hid.
  pose proof (start_equipped w (booting d0) eq_refl) as Heq.
  pose proof (start_only_events w (fun ev => negb (is_ready_notice ev))
                eq_refl eq_refl (fun _ => eq_refl) eq_refl (booting d0)) as Hno.
  destruct (start w (booting d0)) as [[[|serve']| e |] s'] eqn:Hs;
    try discriminate; [|destruct (is_Exception e); discriminate].
  injection H as <- <- <-. split; [reflexivity|]. split; [exact Hid|].
  split.
  - destruct Heq as [Hnone|Heq]; [congruence|exact Heq].
  - apply Hno. repeat constructor.
Qed.

(** From READY on, the guarded race is the delivery of the ready notice
    followed by the wait for the bot task. *)
Lemma race_ready w s t serve s1 url :
  wait_first_completed w
    (log_event (Print (String "010" "Logging into Discord...")) s) =
    (Val (Pending t serve), s1) ->
  user s1 = Some (w_user w) ->
  channels s1 !! "logs" = Some url ->
  guarded_race w s =
  try_except (await (w_send w "logs" (StartedReady (clock s1))) ;;
              await_bot_task t serve)
             (fun e => print (get_error_string e))
             (announcing w s1).
Proof.
  intros Hwait Hu Hl.
  unfold guarded_race, try_except, readiness_race.
  unfold bind at 1. unfold print at 1, emit at 1, modify at 1.
  unfold bind at 1. rewrite Hwait.
  unfold bind at 1, get at 1. unfold bind at 1. unfold print at 1, emit at 1, modify at 1.
  unfold bind at 1. unfold send at 1. unfold bind at 1, get at 1.
  cbn [channels log_event]. rewrite Hl.
  unfold bind at 1. unfold emit at 1, modify at 1.
  rewrite Hu. cbn [user_str clock log_event]. reflexivity.
Qed.

Lemma run_ready w d0 t serve s1 :
  w_early_updates w = Completes d0 ->
  wait_first_completed w (booting d0) = (Val (Pending t serve), s1) ->
  run w =
  try_finally
    (fun _ => try_except (await (w_send w "logs" (StartedReady (clock s1))) ;;
                          await_bot_task t serve)
                         (fun e => print (get_error_string e))
                         (announcing w s1))
    (shutdown w) new_bot.
Proof.
  intros Hearly Hwait.
  destruct (ready_state w d0 t serve s1 Hwait) as (_ & Hu & (_ & _ & [url Hl]) & _).
  unfold run. rewrite (real_main_started w new_bot d0 Hearly).
  unfold try_finally.
  rewrite (race_ready w _ t serve s1 url Hwait Hu Hl). reflexivity.
Qed.

Lemma out_announcing w s1 :
  out (announcing w s1) =
  out s1 ++ [Print ("Logged in as " +:+ w_user w +:+ " and ready!");
             WebhookSend "logs" (StartedReady (clock s1))].
Proof. unfold announcing. cbn [out log_event]. now rewrite <- app_assoc. Qed.

(** X11.  When READY comes first, the run prints the login line and sends
    the ready notice, which reports the instant READY came; it is the only
    ready notice of the whole run, whatever happens afterwards. *)
Theorem ready_notice_once w d0 t serve s1 :
  w_early_updates w = Completes d0 ->
  wait_first_completed w (booting d0) = (Val (Pending t serve), s1) ->
  t = clock s1 /\
  exists rest,
    out (snd (run w)) =
      out s1 ++ [Print ("Logged in as " +:+ w_user w +:+ " and ready!");
                 WebhookSend "logs" (StartedReady (clock s1))] ++ rest /\
    Forall (fun ev => is_ready_notice ev = false) (out s1) /\
    Forall (fun ev => is_ready_notice ev = false) rest.
Proof.
  intros Hearly Hwait.
  destruct (ready_state w d0 t serve s1 Hwait) as (Ht & _ & _ & Hno).
  split; [exact Ht|].
  set (I := fun s => exists rest,
              out s = out (announcing w s1) ++ rest /\
              Forall (fun ev => is_ready_notice ev = false) rest).
  assert (I_log : forall ev s, is_ready_notice ev = false -> I s -> I (log_event ev s)).
  { intros ev s Hev (rest & Ho & Hr). exists (rest ++ [ev]). split.
    - cbn [out log_event]. now rewrite Ho, app_assoc.
    - apply Forall_app. split; [exact Hr | repeat constructor; exact Hev]. }
  assert (HI : I (snd (run w))).
  { rewrite (run_ready w d0 t serve s1 Hearly Hwait).
    set (g := try_except _ _ (announcing w s1)).
    assert (Ig : I (snd g)).
    { apply preserves_snd; [|exists []; split; [now rewrite app_nil_r | constructor]].
      apply preserves_try_except.
      - apply preserves_bind; [apply preserves_await; intros; assumption|].
        intros _. apply await_bot_task_preserves; intros; assumption.
      - intros e. apply preserves_modify. intros s. apply I_log. reflexivity. }
    unfold try_finally. destruct g as [[[]| e |] s2]; cbn [snd] in Ig |- *;
      try exact Ig;
      pose proof (preserves_snd I (shutdown w) s2) as Hs;
      destruct (shutdown w s2) as [[[a|]| e' |] s3]; cbn [snd] in Hs |- *;
      apply Hs; try exact Ig;
      apply shutdown_preserves with (ok := fun ev => is_ready_notice ev = false);
      auto; intros; assumption. }
  destruct HI as (rest & Ho & Hr). exists rest.
  rewrite Ho, out_announcing, <- app_assoc. repeat split; [|exact Hr].
  unfold only_events in Hno. eapply List.Forall_impl; [|exact Hno].
  intros ev Hev. cbn in Hev. now apply negb_true_iff in Hev.
Qed.

Lemma ready_notice_once_witness :
  6 = clock (snd (wait_first_completed healthy (booting 0))) /\
  exists rest,
    out (snd (run healthy)) =
      out (snd (wait_first_completed healthy (booting 0))) ++
      [Print ("Logged in as " +:+ w_user healthy +:+ " and ready!");
       WebhookSend "logs"
         (StartedReady (clock (snd (wait_first_completed healthy (booting 0)))))] ++ rest /\
    Forall (fun ev => is_ready_notice ev = false)
           (out (snd (wait_first_completed healthy (booting 0)))) /\
    Forall (fun ev => is_ready_notice ev = false) rest.
Proof.
  apply (ready_notice_once healthy 0 6 (Fails 100 CancelledError)).
  - reflexivity.
  - vm_compute. reflexivity.
Defined.

Lemma run_after_ready w d0 t serve s1 r s2 :
  w_early_updates w = Completes d0 ->
  wait_first_completed w (booting d0) = (Val (Pending t serve), s1) ->
  try_except (await (w_send w "logs" (StartedReady (clock s1))) ;;
              await_bot_task t serve)
             (fun e => print (get_error_string e))
             (announcing w s1) = (r, s2) ->
  r <> Hang ->
  run w = after_finally r (shutdown w s2).
Proof.
  intros Hearly Hwait Hg Hr.
  rewrite (run_ready w d0 t serve s1 Hearly Hwait).
  rewrite try_finally_after; rewrite Hg; [reflexivity | exact Hr].
Qed.

(** X12.  After READY, with the ready notice delivered, an [Exception] that
    ends the bot task is printed as "type: message" and goes no further:
    the [finally] block runs on a normal outcome, so the run ends as the
    shutdown sequence ends. *)
Theorem serve_exception_printed w d0 t d e s1 d1 :
  w_early_updates w = Completes d0 ->
  wait_first_completed w (booting d0) = (Val (Pending t (Fails d e)), s1) ->
  w_send w "logs" (StartedReady (clock s1)) = Completes d1 ->
  is_Exception e = true ->
  exists s2,
    run w = after_finally (Val tt) (shutdown w s2) /\
    out s2 = out (announcing w s1) ++ [Print (get_error_string e)] /\
    user s2 = user s1 /\ held s2 = held s1.
Proof.
  intros Hearly Hwait Hsend Hexc.
  eexists. split.
  - eapply (run_after_ready w d0 t _ s1 _ _ Hearly Hwait); [|discriminate].
    unfold try_except, bind, await, await_bot_task. rewrite Hsend, Hexc. reflexivity.
  - repeat split.
Qed.

Lemma serve_exception_printed_witness :
  exists s2,
    run serve_crashes = after_finally (Val tt) (shutdown serve_crashes s2) /\
    out s2 = out (announcing serve_crashes (snd (wait_first_completed serve_crashes (booting 0))))
             ++ [Print (get_error_string gateway_lost)] /\
    user s2 = user (snd (wait_first_completed serve_crashes (booting 0))) /\
    held s2 = held (snd (wait_first_completed serve_crashes (booting 0))).
Proof.
  apply (serve_exception_printed serve_crashes 0 6 50 gateway_lost _ 1).
  - reflexivity.
  - vm_compute. reflexivity.
  - reflexivity.
  - reflexivity.
Defined.

(** X13.  After READY, with the ready notice delivered, a cancellation that
    ends the bot task is not printed; it stays pending while the [finally]
    block runs, and is raised again by [_real_main] when the shutdown
    sequence runs off its end. *)
Theorem serve_cancellation_resumes w d0 t d e s1 d1 :
  w_early_updates w = Completes d0 ->
  wait_first_completed w (booting d0) = (Val (Pending t (Fails d e)), s1) ->
  w_send w "logs" (StartedReady (clock s1)) = Completes d1 ->
  is_Exception e = false ->
  exists s2,
    run w = after_finally (Exc e) (shutdown w s2) /\
    out s2 = out (announcing w s1) /\
    user s2 = user s1 /\ held s2 = held s1 /\
    (fst (shutdown w s2) = Val None -> fst (run w) = Exc e).
Proof.
  intros Hearly Hwait Hsend Hexc.
  set (s2 := set_clock (Nat.max (clock (advance d1 (announcing w s1))) (t + d))
                       (advance d1 (announcing w s1))).
  assert (Hrun : run w = after_finally (Exc e) (shutdown w s2)).
  { apply (run_after_ready w d0 t _ s1 _ _ Hearly Hwait); [|discriminate].
    unfold try_except, bind, await, await_bot_task. rewrite Hsend, Hexc. reflexivity. }
  exists s2. split; [exact Hrun|]. repeat split.
  intros Hfin. rewrite Hrun. unfold after_finally.
  destruct (shutdown w s2) as [[[a|]| e' |] s3]; cbn in Hfin |- *; congruence.
Qed.

Lemma serve_cancellation_resumes_witness :
  exists s2,
    run healthy = after_finally (Exc CancelledError) (shutdown healthy s2) /\
    out s2 = out (announcing healthy (snd (wait_first_completed healthy (booting 0)))) /\
    user s2 = user (snd (wait_first_completed healthy (booting 0))) /\
    held s2 = held (snd (wait_first_completed healthy (booting 0))) /\
    (fst (shutdown healthy s2) = Val None -> fst (run healthy) = Exc CancelledError).
Proof.
  apply (serve_cancellation_resumes healthy 0 6 100 CancelledError _ 1).
  - reflexivity.
  - vm_compute. reflexivity.
  - reflexivity.
  - reflexivity.
Defined.

(** X14.  After READY, when the delivery of the ready notice fails with an
    [Exception], that exception is printed and the bot task is not waited
    for: the run goes to the shutdown sequence at the instant of the
    failure, however long the connection would have lived. *)
Theorem ready_notice_failure w d0 t serve s1 d1 e :
  w_early_updates w = Completes d0 ->
  wait_first_completed w (booting d0) = (Val (Pending t serve), s1) ->
  w_send w "logs" (StartedReady (clock s1)) = Fails d1 e ->
  is_Exception e = true ->
  exists s2,
    run w = after_finally (Val tt) (shutdown w s2) /\
    out s2 = out (announcing w s1) ++ [Print (get_error_string e)] /\
    clock s2 = clock s1 + d1 /\ held s2 = held s1.
Proof.
  intros Hearly Hwait Hsend Hexc.
  eexists. split.
  - eapply (run_after_ready w d0 t _ s1 _ _ Hearly Hwait); [|discriminate].
    unfold try_except, bind, await. rewrite Hsend, Hexc. reflexivity.
  - repeat split.
Qed.

Lemma ready_notice_failure_witness :
  exists s2,
    run ready_notice_refused = after_finally (Val tt) (shutdown ready_notice_refused s2) /\
    out s2 = out (announcing ready_notice_refused
                    (snd (wait_first_completed ready_notice_refused (booting 0))))
             ++ [Print (get_error_string webhook_down)] /\
    clock s2 = clock (snd (wait_first_completed ready_notice_refused (booting 0))) + 1 /\
    held s2 = held (snd (wait_first_completed ready_notice_refused (booting 0))).
Proof.
  apply (ready_notice_failure ready_notice_refused 0 6 (Fails 100 CancelledError) _ 1
           webhook_down).
  - reflexivity.
  - vm_compute. reflexivity.
  - reflexivity.
  - reflexivity.
Defined.

(** ** The order of startup *)

Lemma hoare_try_finally {A} (P I : Bot -> Prop) (body : M A) fin :
  hoare P body (fun _ => I) I -> preserves I fin ->
  hoare P (try_finally body fin) (fun _ => I) I.
Proof.
  intros Hb Hf s Hs. specialize (Hb s Hs). unfold try_finally.
  destruct (body s) as [[a| e |] s']; auto;
    specialize (Hf s' Hb); destruct (fin s') as [[[a'|]| e' |] s'']; auto.
Qed.

(** A property established by the bot task and kept by everything else
    holds at the end of the run. *)
Lemma run_invariant w (P I : Bot -> Prop) (ok : event -> Prop) :
  (forall ev s, ok ev -> I s -> I (log_event ev s)) ->
  (forall d s, I s -> I (advance d s)) ->
  (forall t s, I s -> I (set_clock t s)) ->
  (forall r s, I s -> I (unhold r s)) ->
  (forall s, I s -> I (clear_extensions s)) ->
  (forall msg, ok (Print msg)) -> (forall e, ok (PrintException e)) ->
  (forall c n, ok (WebhookSend c n)) -> (forall o, ok (Scheduled o)) ->
  (forall msg s, P s -> P (log_event (Print msg) s)) ->
  (forall d, P (advance d (register_check only_avaliable new_bot))) ->
  (forall d, I (advance d (register_check only_avaliable new_bot))) ->
  hoare P (start w) (fun _ => I) I ->
  I (snd (run w)).
Proof.
  intros I_log I_adv I_clk I_unh I_clr ok_print ok_tb ok_send ok_sch P_log P0 I0 Hstart.
  unfold run, _real_main, bind at 1, modify at 1. unfold bind at 1, await.
  destruct (w_early_updates w) as [d|d e|]; cbn [snd]; auto.
  - pose proof (hoare_try_finally P I (guarded_race w) (shutdown w)) as H.
    specialize (H (guarded_race_hoare w P I ok I_log I_adv I_clk I_unh ok_print ok_tb
                     (fun t => ok_send _ _) P_log Hstart)).
    specialize (H (shutdown_preserves w I ok I_log I_adv I_unh I_clr ok_sch
                     (fun u => ok_send _ _))).
    specialize (H _ (P0 d)).
    destruct (try_finally _ _ _) as [[a| e |] s']; exact H.
  - apply (I0 0).
Qed.

Lemma webhooks_run (l : list (string * string)) : forall s,
  for_each l (fun '(channel_name, webhook_url) =>
                modify (set_channel channel_name webhook_url)) s =
  (Val tt, fold_left (fun acc '(n, u) => set_channel n u acc) l s).
Proof.
  induction l as [|[n u] l IH]; intros s; [reflexivity|].
  cbn [for_each fold_left]. unfold bind at 1, modify at 1. apply IH.
Qed.

Lemma webhooks_fields (l : list (string * string)) : forall s,
  let s' := fold_left (fun acc '(n, u) => set_channel n u acc) l s in
  cache_db s' = cache_db s /\ pool s' = pool s /\ gtts s' = gtts s /\
  (forall name, is_Some (channels s !! name) -> is_Some (channels s' !! name)) /\
  Forall (fun '(name, _) => is_Some (channels s' !! name)) l.
Proof.
  induction l as [|[n u] l IH]; intros s; cbn [fold_left].
  - repeat split; auto.
  - destruct (IH (set_channel n u s)) as (Hc & Hp & Hg & Hkeep & Hall).
    cbn [cache_db pool gtts set_channel] in Hc, Hp, Hg.
    repeat split; auto.
    + intros name Hname. apply Hkeep. cbn [channels set_channel].
      rewrite lookup_insert_is_Some. destruct (decide (n = name)); auto.
    + constructor; [|exact Hall]. apply Hkeep. cbn [channels set_channel].
      rewrite lookup_insert_is_Some. auto.
Qed.

Lemma backends_stay w (m : M unit) :
  preserves (backends_ready w) m ->
  hoare (backends_ready w) m (fun _ => backends_ready w)
        (fun s => only_events (fun ev => negb (is_load ev)) s \/ backends_ready w s).
Proof. intros H. eapply hoare_conseq; [exact H | auto | auto | auto]. Qed.

Lemma start_backends w :
  hoare (only_events (fun ev => negb (is_load ev))) (start w)
        (fun _ s => only_events (fun ev => negb (is_load ev)) s \/ backends_ready w s)
        (fun s => only_events (fun ev => negb (is_load ev)) s \/ backends_ready w s).
Proof.
  set (P0 := only_events (fun ev => negb (is_load ev))).
  set (R := fun s => cache_db s = Some CacheHandle /\ pool s = Some PoolHandle /\
                     gtts s = Some SpeechClient).
  unfold start.
  eapply hoare_bind with (R := fun _ => R).
  { intros s Hs.
    pose proof (acquire_preserves w P0 (fun ev => negb (is_load ev) = true)) as Hp.
    specialize (Hp (only_events_log _) (fun _ _ H => H) (fun _ _ H => H)
                   (fun _ _ H => H) (fun _ _ _ H => H) eq_refl eq_refl s Hs).
    destruct (acquire w s) as [[[]| e |] s'] eqn:Ha; auto.
    exact (acquire_populates w s tt s' Ha). }
  intros _. eapply hoare_bind with (R := fun _ => backends_ready w).
  { intros s (Hc & Hp & Hg). rewrite webhooks_run.
    destruct (webhooks_fields (w_webhooks w) s) as (Hc' & Hp' & Hg' & _ & Hall).
    unfold backends_ready. rewrite Hc', Hp', Hg'. auto. }
  intros _. eapply hoare_bind with (R := fun _ => backends_ready w).
  { apply backends_stay.
    apply load_extensions_preserves with (ok := fun _ => True); auto; intros; assumption. }
  intros _. eapply hoare_bind with (R := fun _ => backends_ready w).
  { apply backends_stay.
    apply load_extensions_preserves with (ok := fun _ => True); auto; intros; assumption. }
  intros _. eapply hoare_bind with (R := fun _ => backends_ready w).
  { apply backends_stay.
    apply send_preserves with (ok := fun _ => True); auto; intros; assumption. }
  intros _. eapply hoare_bind with (R := fun _ => backends_ready w).
  { apply backends_stay. apply preserves_await. intros; assumption. }
  intros _. eapply hoare_conseq.
  - apply (client_start_preserves w (backends_ready w)); intros; assumption.
  - auto.
  - cbn. auto.
  - cbn. auto.
Qed.

(** X15.  In every run, a module is asked to load only on a bot whose cache
    client, database pool and speech client are assigned and whose
    configured channels all have their webhook: whenever the trace of a run
    holds the activation of a module, the bot at the end has them all. *)
Theorem modules_after_backends w name :
  In (LoadExtension name) (out (snd (run w))) ->
  backends_ready w (snd (run w)).
Proof.
  intros Hin.
  set (P0 := only_events (fun ev => negb (is_load ev))).
  assert (HJ : P0 (snd (run w)) \/ backends_ready w (snd (run w))).
  { apply run_invariant with (P := P0) (ok := fun ev => negb (is_load ev) = true);
      try reflexivity.
    - intros ev s Hev [H|H]; [left; apply only_events_log; assumption | right; exact H].
    - intros d s [H|H]; [left|right]; exact H.
    - intros t s [H|H]; [left|right]; exact H.
    - intros r s [H|H]; [left|right]; exact H.
    - intros s [H|H]; [left|right]; exact H.
    - intros msg s H. apply only_events_log; [reflexivity | exact H].
    - intros d. constructor.
    - intros d. left. constructor.
    - apply start_backends. }
  destruct HJ as [Hno|Hb]; [|exact Hb].
  exfalso. unfold P0, only_events in Hno. rewrite List.Forall_forall in Hno.
  specialize (Hno _ Hin). discriminate.
Qed.

Lemma modules_after_backends_witness : backends_ready healthy (snd (run healthy)).
Proof.
  apply (modules_after_backends healthy "cogs.a").
  vm_compute. tauto.
Defined.

Lemma quiet_log ev s :
  is_load ev = false ->
  List.filter is_load (out (log_event ev s)) = List.filter is_load (out s).
Proof.
  intros H. cbn [out log_event]. rewrite List.filter_app. cbn [List.filter].
  rewrite H. apply app_nil_r.
Qed.

Lemma loaded_log w known ev s :
  is_load ev = false -> loaded w known s -> loaded w known (log_event ev s).
Proof.
  intros Hev (Hu & He & Ho & Hf & Hn).
  split; [exact Hu|]. split; [exact He|]. split; [|split; assumption].
  rewrite quiet_log; assumption.
Qed.

Lemma load_extension_loaded w known n s :
  loaded w known s ->
  match load_extension w n s with
  | (Val _, s1) => loaded w (known ++ [n]) s1
  | (_, s1) => user s1 = None
  end.
Proof.
  intros (Hu & He & Ho & Hf & Hn).
  unfold load_extension, bind, emit, modify, get, raise.
  destruct (bool_decide _) eqn:Hk; [exact Hu|].
  destruct (w_ext_fault w n) eqn:Hfault; [exact Hu|].
  apply bool_decide_eq_false in Hk. cbn [extensions log_event] in Hk.
  rewrite He in Hk.
  split; [exact Hu|]. split; [cbn; now rewrite He|]. split; [|split].
  - cbn [out register_extension log_event]. rewrite List.filter_app, Ho, map_app.
    reflexivity.
  - apply Forall_app. split; [exact Hf|]. constructor; [exact Hfault|constructor].
  - apply NoDup_app. split; [exact Hn|]. split.
    + intros x Hx Hxn. apply list_elem_of_singleton in Hxn. subst x. exact (Hk Hx).
    + apply NoDup_singleton.
Qed.

Lemma load_all_loaded w (names : list string) : forall known s,
  loaded w known s ->
  match for_each names (load_extension w) s with
  | (Val _, s') => loaded w (known ++ names) s'
  | (_, s') => user s' = None
  end.
Proof.
  induction names as [|n names IH]; intros known s H.
  - cbn. now rewrite app_nil_r.
  - cbn [for_each]. unfold bind at 1.
    pose proof (load_extension_loaded w known n s H) as H1.
    destruct (load_extension w n s) as [[[]| e |] s1]; try exact H1.
    specialize (IH (known ++ [n]) s1 H1). rewrite <- app_assoc in IH. exact IH.
Qed.

Lemma load_extensions_loaded w folder (known : list string) :
  hoare (loaded w known) (load_extensions w folder)
        (fun _ => loaded w (known ++ modnames folder (w_listdir w folder)))
        (fun s => user s = None \/ started w s).
Proof.
  intros s H. rewrite load_extensions_modnames.
  pose proof (load_all_loaded w (modnames folder (w_listdir w folder)) known s H) as H'.
  destruct (for_each _ _ s) as [[[]| e |] s']; [exact H' | left; exact H' | left; exact H'].
Qed.

Lemma start_started w :
  hoare (loaded w []) (start w)
        (fun _ s => user s = None \/ started w s)
        (fun s => user s = None \/ started w s).
Proof.
  set (K := fun s => user s = None \/ started w s).
  set (Q := loaded w (all_modules w)).
  set (Q' := fun s => Q s /\ In (WebhookSend "logs" Starting) (out s)).
  assert (HP : forall m : M unit,
             preserves (loaded w []) m -> hoare (loaded w []) m (fun _ => loaded w []) K).
  { intros m Hm. eapply hoare_conseq; [exact Hm | auto | auto |].
    intros s [Hu _]. left. exact Hu. }
  unfold start.
  eapply hoare_bind with (R := fun _ => loaded w []).
  { apply HP. apply acquire_preserves with (ok := fun ev => is_load ev = false);
      first [reflexivity | intros; assumption | intros; apply loaded_log; assumption]. }
  intros _. eapply hoare_bind with (R := fun _ => loaded w []).
  { apply HP. apply webhooks_preserves. intros; assumption. }
  intros _. eapply hoare_bind
    with (R := fun _ => loaded w ([] ++ modnames "cogs" (w_listdir w "cogs"))).
  { apply load_extensions_loaded. }
  intros _. eapply hoare_bind with (R := fun _ => Q).
  { apply (load_extensions_loaded w "extensions"
             ([] ++ modnames "cogs" (w_listdir w "cogs"))). }
  intros _. eapply hoare_bind with (R := fun _ => Q').
  { intros s Hs. unfold send, bind, get.
    destruct (channels s !! "logs"); [|left; exact (proj1 Hs)].
    unfold emit, modify, await.
    pose proof (loaded_log w _ (WebhookSend "logs" Starting) s eq_refl Hs) as Hs'.
    destruct (w_send w "logs" Starting); cbn [fst snd].
    - split; [exact Hs'|]. apply in_or_app. right. left. reflexivity.
    - left. exact (proj1 Hs).
    - left. exact (proj1 Hs). }
  intros _. eapply hoare_bind with (R := fun _ => Q').
  { eapply hoare_conseq.
    - apply (preserves_await Q'). intros d s H. exact H.
    - auto.
    - auto.
    - intros s [[Hu _] _]. left. exact Hu. }
  intros _. intros s [(Hu & He & Ho & Hf & Hn) Hin].
  unfold client_start, bind, await, modify.
  destruct (w_login w) as [d|d e|]; [|left; exact Hu|left; exact Hu].
  assert (Hs : forall s', user s' = Some (w_user w) -> out s' = out s -> started w s').
  { intros s' H1 H2. unfold started. rewrite H1, H2. auto. }
  destruct (w_connect w) as [b|d' serve].
  - destruct b; cbn; right; apply Hs; reflexivity.
  - cbn. right. apply Hs; reflexivity.
Qed.

(** X16.  In every run, a bot that has an identity went through the whole
    of startup before it logged in: its identity is the account of the
    token, the starting notice was handed to the logs webhook, and the
    modules it asked to load over the whole run are exactly the modules of
    [cogs] followed by those of [extensions], in listing order, each asked
    once, none of them faulty. *)
Theorem identity_means_started w u :
  user (snd (run w)) = Some u -> started w (snd (run w)).
Proof.
  intros Hu.
  assert (HK : user (snd (run w)) = None \/ started w (snd (run w))).
  { apply run_invariant with (P := loaded w []) (ok := fun ev => is_load ev = false);
      try reflexivity; try (intros; assumption).
    - intros ev s Hev [H|(H1 & H2 & H3 & H4)]; [left; exact H|right].
      split; [exact H1|]. split; [|split; [|exact H4]].
      + cbn [out log_event]. apply in_or_app. left. exact H2.
      + rewrite quiet_log; assumption.
    - intros msg s H. apply loaded_log; [reflexivity | exact H].
    - intros d. repeat split; constructor.
    - intros d. left. reflexivity.
    - apply start_started. }
  destruct HK as [Hnone|Hs]; [congruence|exact Hs].
Qed.

Lemma identity_means_started_witness : started healthy (snd (run healthy)).
Proof.
  apply (identity_means_started healthy "TTS Bot#0001"). vm_compute. reflexivity.
Defined.

(** At the end of that run the bot has no extension left: [bot.close()]
    unloaded the four modules when the release phase started. *)
Example healthy_run_unloads :
  extensions (snd (start healthy new_bot)) = all_modules healthy /\
  extensions (snd (run healthy)) = [].
Proof. vm_compute. split; reflexivity. Qed.

(** ** More on dispatch and on the speech check *)

(** X17.  A direct message of a human that does not begin with "-" is
    ignored: [process_commands] returns normally and leaves the bot as it
    was, with no command run and no error dispatched, whatever checks and
    commands are registered. *)
Theorem direct_message_needs_dash w (message : Message) s :
  guild message = None ->
  author_bot message = false ->
  startswith (content message) "-" = false ->
  process_commands w message s = (Val tt, s).
Proof.
  intros Hg Hb Hp. unfold process_commands. rewrite Hb.
  unfold get_context, prefix. rewrite Hg.
  unfold bind at 1. unfold bind at 1. unfold ret at 1. rewrite Hp. unfold ret at 1.
  reflexivity.
Qed.

Lemma direct_message_needs_dash_witness :
  process_commands healthy
    {| author_bot := false; guild := None; content := "!join" |} serving_bot =
  (Val tt, serving_bot).
Proof.
  apply (direct_message_needs_dash healthy); reflexivity.
Defined.

(** X18.  [check_gtts] never ends with an [Exception]: it returns [True]
    only when the speech client is assigned and the request completed,
    [False] only when the request failed with a rate limit, and otherwise
    returns the exception itself, the [AttributeError] of an unassigned
    speech client included; only a cancellation leaves it as an exception,
    and it stays suspended only if the request never ends. *)
Theorem check_gtts_outcome (gtts_get : behav) s :
  match check_gtts gtts_get s with
  | (Val (inl true), _) => gtts s <> None /\ exists d, gtts_get = Completes d
  | (Val (inl false), _) =>
      gtts s <> None /\ exists d e, gtts_get = Fails d e /\ is_ratelimit e = true
  | (Val (inr e), _) =>
      is_Exception e = true /\ is_ratelimit e = false /\
      (gtts s = None -> e = AttributeError "gtts")
  | (Exc e, _) => is_Exception e = false
  | (Hang, _) => gtts_get = Never
  end.
Proof.
  unfold check_gtts, getattr, bind, get, await, ret, raise.
  destruct (gtts s) as [g|].
  - destruct gtts_get as [d|d e|]; [split; [discriminate|eauto]| |reflexivity].
    destruct (is_ratelimit e) eqn:Hr; [split; [discriminate|eauto]|].
    destruct (is_Exception e) eqn:He; [|exact He].
    repeat split; auto. discriminate.
  - cbn. repeat split.
Qed.

(** An unassigned speech client, a rate limit and a cancelled request. *)
Example check_gtts_cases :
  fst (check_gtts (Completes 1) new_bot) = Val (inr (AttributeError "gtts")) /\
  fst (check_gtts (Fails 1 (Error "RatelimitException" "429")) serving_bot) = Val (inl false) /\
  fst (check_gtts (Fails 1 CancelledError) serving_bot) = Exc CancelledError.
Proof. vm_compute. repeat split. Qed.

(** ** A configuration without a logs channel *)

Lemma webhooks_without (key : string) (l : list (string * string)) : forall s,
  (forall url, ~ In (key, url) l) ->
  channels s !! key = None ->
  channels (fold_left (fun acc '(n, u) => set_channel n u acc) l s) !! key = None /\
  user (fold_left (fun acc '(n, u) => set_channel n u acc) l s) = user s.
Proof.
  induction l as [|[n u] l IH]; intros s Hl Hs; [auto|].
  cbn [fold_left]. destruct (IH (set_channel n u s)) as [Hc Hu].
  - intros url Hin. apply (Hl url). right. exact Hin.
  - cbn [channels set_channel]. rewrite lookup_insert_ne; [exact Hs|].
    intros ->. apply (Hl u). left. reflexivity.
  - split; [exact Hc | exact Hu].
Qed.

Lemma start_without_logs w :
  (forall url, ~ In ("logs", url) (w_webhooks w)) ->
  hoare (fun s => user s = None /\ channels s !! "logs" = None) (start w)
        (fun _ _ => False)
        (fun s => user s = None /\ channels s !! "logs" = None).
Proof.
  intros Hno.
  set (N := fun s => user s = None /\ channels s !! "logs" = None).
  assert (HN : forall m : M unit, preserves N m -> hoare N m (fun _ => N) N)
    by (intros m Hm; exact Hm).
  unfold start.
  eapply hoare_bind with (R := fun _ => N).
  { apply HN. apply acquire_preserves with (ok := fun _ => True); auto;
      intros; assumption. }
  intros _. eapply hoare_bind with (R := fun _ => N).
  { intros s [Hu Hc]. rewrite webhooks_run.
    destruct (webhooks_without "logs" (w_webhooks w) s Hno Hc) as [Hc' Hu'].
    split; congruence. }
  intros _. eapply hoare_bind with (R := fun _ => N).
  { apply HN. apply load_extensions_preserves with (ok := fun _ => True); auto;
      intros; assumption. }
  intros _. eapply hoare_bind with (R := fun _ => N).
  { apply HN. apply load_extensions_preserves with (ok := fun _ => True); auto;
      intros; assumption. }
  intros _. eapply hoare_bind with (R := fun _ _ => False).
  { intros s [Hu Hc]. unfold send, bind, get. rewrite Hc. split; assumption. }
  intros _ s [].
Qed.

(** X19.  When the configuration names no "logs" channel, no run ever logs
    in: [start] cannot get past the starting notice, whose channel lookup
    raises [KeyError], so the bot has no identity at the end of the run and
    its channel table still has no "logs" entry. *)
Theorem no_logs_channel_no_login w :
  (forall url, ~ In ("logs", url) (w_webhooks w)) ->
  user (snd (run w)) = None /\ channels (snd (run w)) !! "logs" = None.
Proof.
  intros Hno.
  apply run_invariant
    with (P := fun s => user s = None /\ channels s !! "logs" = None)
         (I := fun s => user s = None /\ channels s !! "logs" = None)
         (ok := fun _ => True); auto.
  eapply hoare_conseq; [apply (start_without_logs w Hno) | auto | | auto].
  intros a s [].
Qed.

Lemma no_logs_channel_no_login_witness :
  user (snd (run logs_missing)) = None /\
  channels (snd (run logs_missing)) !! "logs" = None.
Proof.
  apply (no_logs_channel_no_login logs_missing).
  intros url [H|[]]. discriminate.
Defined.

(** In that run the modules are loaded, the lookup of the channel fails and
    the failure is reported as a shutdown before READY. *)
Example logs_missing_trace :
  fst (run logs_missing) = Val tt /\
  out (snd (run logs_missing)) =
    [Print (String "010" "Logging into Discord..."); Scheduled CreatePool;
     Scheduled SetupSpeech; LoadExtension "cogs.a"; LoadExtension "cogs.b";
     LoadExtension "cogs.c"; LoadExtension "extensions.database_handler";
     Print "Bot shutdown before ready!"; PrintException (KeyError "logs")].
Proof. vm_compute. split; reflexivity. Qed.
